(** * linkedin-lead-miner: the email spider (src/email_spider.py)

    A shallow embedding of the pure helpers of the spider
    ([ensure_urls_valid], [prioritize_links], [extract_emails]) and of the
    crawl controller ([start_requests], [parse]), followed by the properties
    of the specification that were checked against them.

    Python [str] values are modelled as lists of characters.  Characters are
    8-bit [ascii] values: the letters, digits and punctuation the code tests
    for are all ASCII; a character above 127 is an opaque symbol that is
    neither a letter nor a digit and has no other case.  Python's own
    classes follow the Unicode tables: the model is exact on ASCII text,
    and the whole-word search is stated once more, in [Word], for any
    alphabet and any such classes. *)

From Stdlib Require Import ZArith Ascii String List Bool Lia Permutation Sorted.
From stdpp Require Import base decidable option list gmap strings.

Local Open Scope Z_scope.

Abbreviation str := (list ascii).

(** A string literal read as a Python string. *)
Definition py (s : string) : str := list_ascii_of_string s.

(** ** The Python primitives the source relies on *)

Module Py.

Definition len {A} (s : list A) : Z := Z.of_nat (length s).

(** [s[i]]: negative indices count from the end; [None] stands for
    IndexError. *)
Definition index {A} (s : list A) (i : Z) : option A :=
  if 0 <=? i then s !! Z.to_nat i
  else if 0 <=? len s + i then s !! Z.to_nat (len s + i) else None.

(** Bound adjustment of a slice: a negative bound counts from the end and
    the result is clamped to [0, len s]. *)
Definition clamp {A} (s : list A) (i : Z) : Z :=
  Z.max 0 (Z.min (len s) (if i <? 0 then i + len s else i)).

(** [s[a:b]]. *)
Definition slice {A} (s : list A) (a b : Z) : list A :=
  let a' := clamp s a in
  let b' := clamp s b in
  take (Z.to_nat (b' - a')) (drop (Z.to_nat a') s).

(** [s[:b]]. *)
Definition slice_to {A} (s : list A) (b : Z) : list A := slice s 0 b.

(** [s.startswith(p)]. *)
Fixpoint startswith (s p : str) {struct p} : bool :=
  match p, s with
  | [], _ => true
  | _ :: _, [] => false
  | c :: p', d :: s' => bool_decide (c = d) && startswith s' p'
  end.

(** [s.startswith((p1, p2, ...))]: a tuple of prefixes. *)
Definition startswith_any (s : str) (ps : list str) : bool :=
  existsb (startswith s) ps.

Fixpoint find_aux (target s : str) (i : Z) : Z :=
  if startswith s target then i
  else match s with
       | [] => -1
       | _ :: s' => find_aux target s' (i + 1)
       end.

(** [text.find(target, pos)] for [0 <= pos]: the lowest index at or after
    [pos] where [target] occurs, or -1. *)
Definition find (text target : str) (pos : Z) : Z :=
  if len text <? pos then -1
  else find_aux target (drop (Z.to_nat pos) text) pos.

(** [sub in s]. *)
Definition contains (sub s : str) : bool := negb (find s sub 0 =? -1).

(** [s.replace(old, new)] for a non-empty [old]: the non-overlapping
    occurrences of [old] are replaced from left to right.  [skip] counts
    the characters of an occurrence that are still to be dropped. *)
Fixpoint replace_aux (old new s : str) (skip : nat) : str :=
  match s with
  | [] => []
  | c :: s' =>
      match skip with
      | S k => replace_aux old new s' k
      | O =>
          if startswith s old
          then new ++ replace_aux old new s' (length old - 1)
          else c :: replace_aux old new s' 0
      end
  end.

Definition replace (s old new : str) : str := replace_aux old new s 0.

Definition is_upper (c : ascii) : bool :=
  let n := N.to_nat (N_of_ascii c) in (65 <=? n)%nat && (n <=? 90)%nat.
Definition is_lower (c : ascii) : bool :=
  let n := N.to_nat (N_of_ascii c) in (97 <=? n)%nat && (n <=? 122)%nat.
Definition is_digit (c : ascii) : bool :=
  let n := N.to_nat (N_of_ascii c) in (48 <=? n)%nat && (n <=? 57)%nat.
Definition is_letter (c : ascii) : bool := is_upper c || is_lower c.
Definition is_alnum (c : ascii) : bool := is_letter c || is_digit c.

Definition lower_char (c : ascii) : ascii :=
  if is_upper c then ascii_of_N (N_of_ascii c + 32) else c.

(** [s.lower()] on ASCII text: only [A] to [Z] have another case. *)
Definition lower (s : str) : str := map lower_char s.

(** [s.split(sep)] for a one-character separator. *)
Fixpoint split (sep : ascii) (s : str) : list str :=
  match s with
  | [] => [[]]
  | c :: s' =>
      if bool_decide (c = sep) then [] :: split sep s'
      else match split sep s' with
           | h :: t => (c :: h) :: t
           | [] => [[c]]
           end
  end.

(** A [while True:] loop whose body either continues with a new state or
    breaks with a result; the number of executions of the body is
    returned with the result.  [None] means the fuel ran out. *)
Fixpoint while_true {S R} (body : S → S + R) (fuel : nat) (st : S)
  : option (R * nat) :=
  match fuel with
  | O => None
  | Datatypes.S fuel' =>
      match body st with
      | inr r => Some (r, 1%nat)
      | inl st' =>
          match while_true body fuel' st' with
          | Some (r, n) => Some (r, Datatypes.S n)
          | None => None
          end
      end
  end.

(** [for index, x in enumerate(xs): if <test>: return <value>]: the value
    of the first element, in order, for which the body returns. *)
Fixpoint for_enumerate {A R} (body : nat → A → option R) (xs : list A)
    (index : nat) : option R :=
  match xs with
  | [] => None
  | x :: xs' =>
      match body index x with
      | Some r => Some r
      | None => for_enumerate body xs' (Datatypes.S index)
      end
  end.

End Py.

(** ** extract_emails *)

(** [allowed_chars = set("abc...XYZ0123456789_.-")]. *)
Definition allowed_chars : gset ascii :=
  list_to_set
    (py "abcdefghijklmnopqrstuvwxyzABCDEFGHIJKLMNOPQRSTUVWXYZ0123456789_.-").

(** [c in allowed_chars], for the character read at an index. *)
Definition in_allowed (c : option ascii) : bool :=
  match c with
  | Some c => bool_decide (c ∈ allowed_chars)
  | None => false
  end.

(** [target = "@" + domain.replace('www.', '')]. *)
Definition target_of (domain : str) : str :=
  py "@" ++ Py.replace domain (py "www.") [].

(** The inner loop
    [while start >= 0 and text[start] in allowed_chars: start -= 1],
    unrolled at most [n] times. *)
Fixpoint walk_back (text : str) (n : nat) (start : Z) : Z :=
  match n with
  | O => start
  | S n' =>
      if (0 <=? start) && in_allowed (Py.index text start)
      then walk_back text n' (start - 1)
      else start
  end.

(** One execution of the body of the scan loop, from the state
    [(pos, emails)]. *)
Definition scan_body (text target : str) (st : Z * gset str)
  : (Z * gset str) + gset str :=
  let '(pos, emails) := st in
  let target_len := Py.len target in
  let pos := Py.find text target pos in
  if pos =? -1 then inr emails
  else
    let end_idx := pos + target_len in
    if (end_idx <? Py.len text) && in_allowed (Py.index text end_idx)
    then inl (pos + target_len, emails)
    else
      (* the inner loop runs [pos] times at most: [start] goes down from
         [pos - 1] and the loop stops below 0 *)
      let start := walk_back text (Z.to_nat pos) (pos - 1) in
      let username := Py.slice text (start + 1) pos in
      let emails :=
        if bool_decide (username = []) then emails
        else {[ username ++ target ]} ∪ emails in
      inl (pos + target_len, emails).

(** The scan loop run with a given fuel: the set of emails and the number
    of iterations, when the loop exits within the fuel. *)
Definition extract_emails_run (text domain : str) (fuel : nat)
  : option (gset str * nat) :=
  Py.while_true (scan_body text (target_of domain)) fuel (0, ∅).

(** [extract_emails(text, domain)].  The loop exits within
    [len(text) + 1] iterations ([extract_emails_run_total] below), so the
    last branch is never taken. *)
Definition extract_emails (text domain : str) : gset str :=
  match extract_emails_run text domain (S (length text)) with
  | Some (emails, _) => emails
  | None => ∅
  end.

(** ** The regular expressions of the link prioritizer

    The only pattern the source compiles is [rf'\b{kw}\b'] with
    [kw = re.escape(...)]: a word boundary, a literal and a word boundary.
    A pattern is a sequence of such items; without alternatives or
    repetition, [re.search] succeeds when the items match in sequence from
    some start position. *)

Module Re.

(** [\w] on ASCII text: a letter, a digit or the underscore.  (For other
    text see [Word] below.) *)
Definition is_word_char (c : ascii) : bool :=
  Py.is_alnum c || bool_decide (c = "_"%char).

(** Is there a word character at index [i]?  Outside the string there is
    none. *)
Definition word_at (s : str) (i : nat) : bool :=
  match s !! i with
  | Some c => is_word_char c
  | None => false
  end.

Definition word_before (s : str) (i : nat) : bool :=
  match i with
  | O => false
  | S j => word_at s j
  end.

(** [\b] at position [i]: exactly one of the two neighbours is a word
    character. *)
Definition boundary (s : str) (i : nat) : bool :=
  xorb (word_before s i) (word_at s i).

Inductive item :=
  | Boundary
  | Literal (l : str).

(** [re.escape(s)]: the pattern that matches [s] literally. *)
Definition escape (s : str) : item := Literal s.

Fixpoint match_at (p : list item) (s : str) (i : nat) : bool :=
  match p with
  | [] => true
  | Boundary :: p' => boundary s i && match_at p' s i
  | Literal l :: p' =>
      Py.startswith (drop i s) l && match_at p' s (i + length l)
  end.

(** [re.search(p, s)], read as a truth value. *)
Definition search (p : list item) (s : str) : bool :=
  existsb (match_at p s) (seq 0 (S (length s))).

End Re.

(** ** Sorting

    [sorted(xs, key=k)] is a stable sort that compares keys with [<].  It is
    modelled by an insertion sort that places an element before the first
    element whose key is not smaller; the result of a stable sort does not
    depend on the algorithm ([sorted_unique] below). *)

Fixpoint insert_by {A K} (lt : K → K → bool) (key : A → K) (x : A)
    (l : list A) : list A :=
  match l with
  | [] => [x]
  | y :: l' =>
      if lt (key y) (key x) then y :: insert_by lt key x l'
      else x :: y :: l'
  end.

Definition sorted {A K} (lt : K → K → bool) (key : A → K) (l : list A)
  : list A :=
  foldr (insert_by lt key) [] l.

(** [x] may stand before [y]: the key of [y] is not smaller. *)
Definition key_le {A K} (lt : K → K → bool) (key : A → K) (x y : A) : Prop :=
  lt (key y) (key x) = false.

(** The value of [priority_score]: an [int] or [float('inf')]. *)
Inductive score :=
  | Rank (n : nat)
  | Infinity.

(** [a < b] on scores. *)
Definition score_lt (a b : score) : bool :=
  match a, b with
  | Rank x, Rank y => (x <? y)%nat
  | Rank _, Infinity => true
  | Infinity, _ => false
  end.

Definition score_le (a b : score) : Prop := score_lt b a = false.

#[global] Instance score_eq_dec : EqDecision score.
Proof. solve_decision. Defined.

(** ** URLs, links, requests and responses *)

(** The six components [urlparse] returns. *)
Record ParseResult := {
  scheme : str;
  netloc : str;
  path : str;
  params : str;
  query : str;
  fragment : str
}.

(** [parsed._replace(fragment=f)]. *)
Definition replace_fragment (parsed : ParseResult) (f : str) : ParseResult :=
  {| scheme := scheme parsed; netloc := netloc parsed; path := path parsed;
     params := params parsed; query := query parsed; fragment := f |}.

(** A link as the link extractor returns it. *)
Record Link := {
  url : str;
  text : str
}.

(** [request.meta] and [response.meta]: the origin domain the spider puts
    there and the depth the crawling runtime records. *)
Record Meta := {
  meta_origin_domain : str;
  meta_depth : option nat
}.

Record Request := {
  request_url : str;
  priority : Z;
  request_meta : Meta
}.

Record Response := {
  response_url : str;
  response_text : str;
  response_meta : Meta
}.

(** [response.meta.get('depth', 0)], also the hop depth of a request. *)
Definition depth_of (m : Meta) : nat := default 0%nat (meta_depth m).

Definition hop_depth (r : Request) : nat := depth_of (request_meta r).

(** The scraped item [{'email': ..., 'origin_domain': ...}]. *)
Record Item := {
  email : str;
  origin_domain : str
}.

(** What [parse] yields. *)
Inductive output :=
  | YieldItem (i : Item)
  | YieldRequest (r : Request).

Definition yielded_items (outs : list output) : list Item :=
  omap (λ o, match o with YieldItem i => Some i | _ => None end) outs.

Definition yielded_requests (outs : list output) : list Request :=
  omap (λ o, match o with YieldRequest r => Some r | _ => None end) outs.

(** The attributes of the spider. *)
Record EmailSpider := {
  start_urls : list str;
  max_pages_per_domain : Z;
  priority_url_keywords : list str;
  found_emails : list Item;
  pages_crawled_per_domain : gmap str Z
}.

(** ** ensure_urls_valid *)

Definition ensure_urls_valid (urls : list str) : list str :=
  foldl
    (λ valid_urls url,
       let url :=
         if negb (Py.startswith_any url [py "http://"; py "https://"])
         then py "https://" ++ url
         else url in
       valid_urls ++ [url])
    [] urls.

(** The seed normalization in the words of the specification. *)
Definition normalize_seed_spec (url : str) : str :=
  if Py.startswith url (py "http://") || Py.startswith url (py "https://")
  then url
  else py "https://" ++ url.

(** ** The spider

    [urlparse] and [urlunparse] (urllib) and the link extractor (Scrapy) are
    not code of the repository: the spider is defined for any such
    functions.  [extract_links allow_domains process_value response] stands
    for
    [LinkExtractor(allow_domains=..., process_value=...).extract_links(response)]. *)

Section Spider.

Variable urlparse : str → ParseResult.
Variable urlunparse : ParseResult → str.
Variable extract_links : list str → (str → str) → Response → list Link.

Definition domain (url : str) : str :=
  let parsed_url := urlparse url in
  netloc parsed_url.

Definition remove_fragment (url : str) : str :=
  let parsed := urlparse url in
  urlunparse (replace_fragment parsed []).

(** *** prioritize_links *)

(** [re.search(rf'\b{kw}\b', path)] with [kw = re.escape(keyword.lower())]. *)
Definition whole_word_match (keyword path : str) : bool :=
  let kw := Re.escape (Py.lower keyword) in
  Re.search [Re.Boundary; kw; Re.Boundary] path.

Definition priority_score (priority_keywords : list str) (link : Link)
  : score :=
  let path := Py.lower (path (urlparse (url link))) in
  match
    Py.for_enumerate
      (λ index keyword,
         if whole_word_match keyword path then Some (Rank index) else None)
      priority_keywords 0%nat
  with
  | Some s => s
  | None =>
      match
        Py.for_enumerate
          (λ index keyword,
             if Py.contains (Py.lower keyword) path
             then Some (Rank (index + length priority_keywords))
             else None)
          priority_keywords 0%nat
      with
      | Some s => s
      | None => Infinity
      end
  end.

Definition prioritize_links (links : list Link)
    (priority_keywords : list str) : list Link :=
  sorted score_lt (priority_score priority_keywords) links.

(** *** The spider's methods *)

(** [EmailSpider(start_urls)]: a comma-separated string or a list. *)
Definition init (urls : str + list str) : EmailSpider :=
  let urls :=
    match urls with
    | inl s => Py.split ","%char s
    | inr l => l
    end in
  {| start_urls := ensure_urls_valid urls;
     max_pages_per_domain := 50;
     priority_url_keywords := [];
     found_emails := [];
     pages_crawled_per_domain := ∅ |}.

(** [from_crawler]: the two settings, each optional. *)
Definition from_crawler (MAX_PAGES_PER_DOMAIN : option Z)
    (PRIORITY_URL_KEYWORDS : option (list str)) (urls : str + list str)
  : EmailSpider :=
  let self := init urls in
  {| start_urls := start_urls self;
     max_pages_per_domain := default 50 MAX_PAGES_PER_DOMAIN;
     priority_url_keywords := default [] PRIORITY_URL_KEYWORDS;
     found_emails := found_emails self;
     pages_crawled_per_domain := pages_crawled_per_domain self |}.

(** [scrapy.Request(url, meta={'origin_domain': ...})] with the default
    priority. *)
Definition start_requests (self : EmailSpider) : list Request :=
  (λ url,
     {| request_url := url;
        priority := 0;
        request_meta :=
          {| meta_origin_domain := domain url; meta_depth := None |} |})
  <$> start_urls self.

(** [parse(response)], run to the end of the generator: the spider after
    the call and what was yielded, in order.  The emails, a set, are
    iterated in the order of [elements]. *)
Definition parse (self : EmailSpider) (response : Response)
  : EmailSpider * list output :=
  let origin_domain := meta_origin_domain (response_meta response) in
  let current_domain := domain (response_url response) in
  let emails := extract_emails (response_text response) current_domain in
  let scrapped_items :=
    (λ email, {| email := email; origin_domain := origin_domain |})
    <$> elements emails in
  let count := default 0 (pages_crawled_per_domain self !! current_domain) + 1 in
  let self :=
    {| start_urls := start_urls self;
       max_pages_per_domain := max_pages_per_domain self;
       priority_url_keywords := priority_url_keywords self;
       found_emails := found_emails self ++ scrapped_items;
       pages_crawled_per_domain :=
         <[current_domain := count]> (pages_crawled_per_domain self) |} in
  if max_pages_per_domain self <? count
  then (self, YieldItem <$> scrapped_items)
  else if bool_decide (depth_of (response_meta response) = 0%nat)
  then
    let links := extract_links [current_domain] remove_fragment response in
    let prioritized_links :=
      prioritize_links links (priority_url_keywords self) in
    let links_limit := max_pages_per_domain self - count in
    let requests :=
      imap
        (λ index link,
           {| request_url := url link;
              priority := Py.len prioritized_links - Z.of_nat index;
              request_meta :=
                {| meta_origin_domain := origin_domain;
                   meta_depth := None |} |})
        (Py.slice_to prioritized_links links_limit) in
    (self, (YieldItem <$> scrapped_items) ++ (YieldRequest <$> requests))
  else (self, YieldItem <$> scrapped_items).

(** *** A crawl run

    The crawling runtime holds the pending requests.  It answers a pending
    request with a response that carries the request's [meta] (the URL of
    the response may differ from the request's after a redirect), hands the
    response to [parse], and records in the [meta] of every request yielded
    there the depth of the response plus one; or it drops a pending request
    (a failed fetch, a duplicate).  Each request and each item is tagged
    with the seed URL of the chain of requests it comes from. *)

Inductive event :=
  | Fetched (pick : nat) (final_url body : str)
  | Dropped (pick : nat).

Record Run := {
  spider : EmailSpider;
  pending : list (Request * str);
  produced : list (Request * str);
  results : list (Item * str)
}.

(** The runtime's depth bookkeeping on a yielded request. *)
Definition with_depth (d : nat) (r : Request) : Request :=
  {| request_url := request_url r;
     priority := priority r;
     request_meta :=
       {| meta_origin_domain := meta_origin_domain (request_meta r);
          meta_depth := Some d |} |}.

Definition start_run (self : EmailSpider) : Run :=
  let requests := (λ r, (r, request_url r)) <$> start_requests self in
  {| spider := self; pending := requests; produced := requests;
     results := [] |}.

Definition on_event (run : Run) (e : event) : Run :=
  match e with
  | Dropped pick =>
      {| spider := spider run; pending := delete pick (pending run);
         produced := produced run; results := results run |}
  | Fetched pick final_url body =>
      match pending run !! pick with
      | None => run
      | Some (request, seed) =>
          let response :=
            {| response_url := final_url; response_text := body;
               response_meta := request_meta request |} in
          let '(self, outs) := parse (spider run) response in
          let followed :=
            (λ r, (with_depth (S (hop_depth request)) r, seed))
            <$> yielded_requests outs in
          {| spider := self;
             pending := delete pick (pending run) ++ followed;
             produced := produced run ++ followed;
             results :=
               results run ++ ((λ i, (i, seed)) <$> yielded_items outs) |}
      end
  end.

Definition crawl (self : EmailSpider) (events : list event) : Run :=
  foldl on_event (start_run self) events.

(** What holds of a run of the spider [self] at every moment: the seeds do
    not change; a pending request was produced; a request that was produced
    and an item that was emitted carry the domain of their seed, which is
    one of the start URLs; no request is deeper than one hop. *)
Definition crawl_invariant (self : EmailSpider) (run : Run) : Prop :=
  start_urls (spider run) = start_urls self
  ∧ (∀ r seed, (r, seed) ∈ pending run → (r, seed) ∈ produced run)
  ∧ (∀ r seed, (r, seed) ∈ produced run →
       seed ∈ start_urls self
       ∧ meta_origin_domain (request_meta r) = domain seed
       ∧ (hop_depth r ≤ 1)%nat)
  ∧ (∀ item seed, (item, seed) ∈ results run →
       seed ∈ start_urls self ∧ origin_domain item = domain seed).

End Spider.

(** ** The vocabulary of the properties *)

(** [target] occurs in [s] at index [i]. *)
Definition occurs_at (target s : str) (i : nat) : Prop :=
  (i + length target ≤ length s)%nat ∧ take (length target) (drop i s) = target.

(** The character at index [i] of [text], if there is one, is not an
    allowed character: [i] is a bound of a local part. *)
Definition outside_allowed (text : str) (i : Z) : Prop :=
  i < 0 ∨ Py.len text ≤ i ∨ in_allowed (text !! Z.to_nat i) = false.

(** [e] is an address for [target] that stands in [text] at index [i]. *)
Definition extracted_at (text target e : str) (i : nat) : Prop :=
  ∃ username,
    e = username ++ target
    ∧ username ≠ []
    ∧ Forall (λ c, c ∈ allowed_chars) username
    ∧ occurs_at e text i
    ∧ outside_allowed text (Z.of_nat i - 1)
    ∧ outside_allowed text (Z.of_nat i + Py.len e).

(** The domain without a leading [www.], in the words of the
    specification. *)
Definition strip_leading_www_spec (domain : str) : str :=
  if Py.startswith domain (py "www.") then drop 4 domain else domain.

(** Is there, at index [i] of [s], a character of the class [inside]? *)
Definition class_at (inside : ascii → bool) (s : str) (i : nat) : bool :=
  match s !! i with
  | Some c => inside c
  | None => false
  end.

Definition class_before (inside : ascii → bool) (s : str) (i : nat) : bool :=
  match i with
  | O => false
  | S j => class_at inside s j
  end.

(** [kw] occurs in [path] at index [i], bounded on both sides by a character
    that is not of the class [inside] or by an end of [path]. *)
Definition bounded_at (inside : ascii → bool) (kw path : str) (i : nat)
  : Prop :=
  occurs_at kw path i
  ∧ class_before inside path i = false
  ∧ class_at inside path (i + length kw) = false.

(** ** Concrete collaborators for the examples

    A reading of URLs of the shape [scheme://host/path?query#fragment]
    (without [://] the whole of it, up to the query, is the path, as for
    ["/about"]), and a link extractor for pages whose body is a list of
    URLs separated by spaces. *)

(** The part of [s] before the first [c], and the part after it if [c]
    occurs. *)
Fixpoint cut (c : ascii) (s : str) : str * option str :=
  match s with
  | [] => ([], None)
  | d :: s' =>
      if bool_decide (d = c) then ([], Some s')
      else let '(before, after) := cut c s' in (d :: before, after)
  end.

Definition simple_urlparse (url : str) : ParseResult :=
  let '(rest, frag) := cut "#"%char url in
  let '(rest, qry) := cut "?"%char rest in
  let i := Py.find rest (py "://") 0 in
  if i =? -1 then
    {| scheme := []; netloc := []; path := rest; params := [];
       query := default [] qry; fragment := default [] frag |}
  else
    let after := drop (Z.to_nat i + 3) rest in
    let '(host, tail) := cut "/"%char after in
    {| scheme := take (Z.to_nat i) rest;
       netloc := host;
       path := match tail with Some p => "/"%char :: p | None => [] end;
       params := [];
       query := default [] qry;
       fragment := default [] frag |}.

Definition simple_urlunparse (p : ParseResult) : str :=
  (if bool_decide (scheme p = []) then [] else scheme p ++ py "://")
  ++ netloc p ++ path p
  ++ (if bool_decide (query p = []) then [] else "?"%char :: query p)
  ++ (if bool_decide (fragment p = []) then [] else "#"%char :: fragment p).

(** A link to a URL given as a literal. *)
Definition link_to (u : string) : Link := {| url := py u; text := [] |}.

Definition simple_extract_links (allow_domains : list str)
    (process_value : str → str) (response : Response) : list Link :=
  (λ u, {| url := u; text := [] |})
  <$> filter (λ u, netloc (simple_urlparse u) ∈ allow_domains)
        (process_value
         <$> filter (λ u, u ≠ [])
               (Py.split " "%char (response_text response))).

(** A spider, a response and a run for the examples: the seed
    [example.com] is answered, after a redirect, by a page of
    [www.example.org]. *)
Definition demo_spider : EmailSpider :=
  from_crawler (Some 3) (Some [py "contact"]) (inr [py "example.com"]).

Definition demo_response : Response :=
  {| response_url := py "https://www.example.org/home";
     response_text :=
       py "bob@example.org https://www.example.org/a#x https://www.example.org/contact https://other.org/contact https://www.example.org/b";
     response_meta :=
       {| meta_origin_domain := py "example.com"; meta_depth := None |} |}.

Definition demo_events : list event :=
  [Fetched 0 (response_url demo_response) (response_text demo_response);
   Fetched 1 (py "https://www.example.org/a")
     (py "eve@example.org https://www.example.org/c")].

Definition demo_crawl : Run :=
  crawl simple_urlparse simple_urlunparse simple_extract_links demo_spider
    demo_events.

(** ** The vocabulary of the further properties *)

(** The number of occurrences of the character [c] in [s]. *)
Definition count_char (c : ascii) (s : str) : nat :=
  length (filter (λ d, d = c) s).

(** The scheme test of [ensure_urls_valid]. *)
Definition has_scheme (url : str) : bool :=
  Py.startswith url (py "http://") || Py.startswith url (py "https://").

(** The counter of a domain, a missing entry counting as 0 (the
    [defaultdict(int)]). *)
Definition pages_crawled (self : EmailSpider) (d : str) : Z :=
  default 0 (pages_crawled_per_domain self !! d).

(** The number of pending requests at depth 0. *)
Definition seeds_pending (run : Run) : nat :=
  length (filter (λ p : Request * str, hop_depth p.1 = 0%nat) (pending run)).

(** ** The whole-word search for any alphabet

    The pattern [rf'\b{kw}\b'] is compiled without [re.ASCII], and the
    keyword and the path are folded with [str.lower()]: Python decides
    what an alphanumeric character is, and what the lower case of a string
    is, from the Unicode tables, which the source does not hold.  Here the
    search is written for any type of characters, any class [alnum] of
    alphanumeric characters and any folding [lower]; [\w] is the class
    [alnum] and the underscore.  [Re] and [whole_word_match] above are this
    search for the 8-bit characters, with the ASCII letters and digits and
    the ASCII folding ([whole_word_match_instance] below). *)

Module Word.

Section Search.

Context {C : Type} `{EqDecision C}.
Variable alnum : C → bool.
Variable underscore : C.

(** [s.startswith(p)]. *)
Fixpoint startswith (s p : list C) {struct p} : bool :=
  match p, s with
  | [], _ => true
  | _ :: _, [] => false
  | c :: p', d :: s' => bool_decide (c = d) && startswith s' p'
  end.

(** [\w]: an alphanumeric character or the underscore. *)
Definition is_word_char (c : C) : bool :=
  alnum c || bool_decide (c = underscore).

Definition word_at (s : list C) (i : nat) : bool :=
  match s !! i with
  | Some c => is_word_char c
  | None => false
  end.

Definition word_before (s : list C) (i : nat) : bool :=
  match i with
  | O => false
  | S j => word_at s j
  end.

(** [\b] at position [i]. *)
Definition boundary (s : list C) (i : nat) : bool :=
  xorb (word_before s i) (word_at s i).

Inductive item :=
  | Boundary
  | Literal (l : list C).

(** [re.escape(s)]. *)
Definition escape (s : list C) : item := Literal s.

Fixpoint match_at (p : list item) (s : list C) (i : nat) : bool :=
  match p with
  | [] => true
  | Boundary :: p' => boundary s i && match_at p' s i
  | Literal l :: p' =>
      startswith (drop i s) l && match_at p' s (i + length l)
  end.

(** [re.search(p, s)], read as a truth value. *)
Definition search (p : list item) (s : list C) : bool :=
  existsb (match_at p s) (seq 0 (S (length s))).

Variable lower : list C → list C.

(** [re.search(rf'\b{kw}\b', path)] with
    [kw = re.escape(keyword.lower())]. *)
Definition whole_word_match (keyword path : list C) : bool :=
  let kw := escape (lower keyword) in
  search [Boundary; kw; Boundary] path.

(** [kw] occurs in [s] at index [i]. *)
Definition occurs_at (kw s : list C) (i : nat) : Prop :=
  (i + length kw ≤ length s)%nat ∧ take (length kw) (drop i s) = kw.

(** [kw] occurs in [path] at index [i], and neither the character before
    the occurrence nor the character after it, where there is one, is a
    word character. *)
Definition bounded_at (kw path : list C) (i : nat) : Prop :=
  occurs_at kw path i
  ∧ word_before path i = false
  ∧ word_at path (i + length kw) = false.

End Search.

End Word.

(** A class of alphanumeric characters that holds, with the ASCII letters
    and digits, the letter of code 233 (e acute), as Python's does. *)
Definition alnum_latin (c : ascii) : bool :=
  Py.is_alnum c || bool_decide (c = "233"%char).

(** * Properties *)

(** ** Strings *)

Lemma startswith_prefix (s p : str) :
  Py.startswith s p = true ↔ p `prefix_of` s.
Proof.
  revert s. induction p as [|c p IH]; intros s; simpl.
  - split; [intros _; apply prefix_nil | done].
  - destruct s as [|d s].
    + split; [done | intros H; by apply prefix_nil_not in H].
    + rewrite andb_true_iff, bool_decide_eq_true, IH. split.
      * intros [-> H]. by apply prefix_cons.
      * intros H. split; [by apply prefix_cons_inv_1 in H
                         | by apply prefix_cons_inv_2 in H].
Qed.

Lemma startswith_occurs (target s : str) (i : nat) :
  (i ≤ length s)%nat →
  Py.startswith (drop i s) target = true ↔ occurs_at target s i.
Proof.
  intros Hi. rewrite startswith_prefix. unfold occurs_at. split.
  - intros [r Hr]. split.
    + apply (f_equal length) in Hr.
      rewrite length_drop, length_app in Hr. lia.
    + by rewrite Hr, take_app_length.
  - intros [_ H]. exists (drop (length target) (drop i s)).
    rewrite <- H at 1. by rewrite take_drop.
Qed.

Lemma find_aux_found (target s : str) (i : Z) :
  0 ≤ i →
  Py.find_aux target s i = -1
  ∨ ∃ k : nat, Py.find_aux target s i = i + Z.of_nat k
               ∧ (k ≤ length s)%nat
               ∧ Py.startswith (drop k s) target = true.
Proof.
  revert i. induction s as [|c s IH]; intros i Hi.
  - cbn [Py.find_aux]. destruct (Py.startswith [] target) eqn:E; [|by left].
    right. exists 0%nat. rewrite Z.add_0_r. by rewrite drop_0.
  - cbn [Py.find_aux]. destruct (Py.startswith (c :: s) target) eqn:E.
    + right. exists 0%nat. rewrite Z.add_0_r, drop_0. simpl. split_and!; [done|lia|done].
    + destruct (IH (i + 1)) as [H | (k & H1 & H2 & H3)]; [lia | by left |].
      right. exists (S k). split_and!; [rewrite H1; lia | simpl; lia | done].
Qed.

(** When [find_aux] answers [i + k], [target] does not occur before [k];
    when it answers -1, [target] does not occur at all. *)
Lemma find_aux_first (target s : str) (i : Z) (j : nat) :
  (j ≤ length s)%nat →
  Py.startswith (drop j s) target = true →
  ∃ k : nat, (k ≤ j)%nat ∧ Py.find_aux target s i = i + Z.of_nat k
             ∧ Py.startswith (drop k s) target = true.
Proof.
  revert i j. induction s as [|c s IH]; intros i j Hj Hocc.
  - assert (j = 0)%nat as -> by (simpl in Hj; lia).
    exists 0%nat. rewrite drop_0 in Hocc. cbn [Py.find_aux]. rewrite Hocc.
    split_and!; [lia | lia | by rewrite drop_0].
  - cbn [Py.find_aux]. destruct (Py.startswith (c :: s) target) eqn:E.
    + exists 0%nat. split_and!; [lia | lia | by rewrite drop_0].
    + destruct j as [|j]; [rewrite drop_0 in Hocc; congruence|].
      simpl in Hj, Hocc.
      destruct (IH (i + 1) j) as (k & Hk & H1 & H2); [lia | done |].
      exists (S k). split_and!; [lia | rewrite H1; lia | done].
Qed.

(** [text.find(target, pos)] answers -1 or the index of an occurrence at or
    after [pos]. *)
Lemma find_found (text target : str) (pos : Z) :
  0 ≤ pos →
  Py.find text target pos = -1
  ∨ ∃ r : nat, Py.find text target pos = Z.of_nat r
               ∧ pos ≤ Z.of_nat r
               ∧ occurs_at target text r.
Proof.
  intros Hpos. unfold Py.find, Py.len.
  destruct (Z.ltb_spec (Z.of_nat (length text)) pos) as [H|H]; [by left|].
  destruct (find_aux_found target (drop (Z.to_nat pos) text) pos Hpos)
    as [E | (k & E & Hk & Hocc)]; [by left|].
  right. exists (Z.to_nat pos + k)%nat.
  rewrite length_drop in Hk. rewrite drop_drop in Hocc.
  split_and!; [rewrite E; lia | lia |].
  apply startswith_occurs; [lia | done].
Qed.

(** It answers -1 only when there is no occurrence at or after [pos]. *)
Lemma find_complete (text target : str) (pos : Z) (j : nat) :
  0 ≤ pos → pos ≤ Z.of_nat j →
  occurs_at target text j →
  ∃ r : nat, Py.find text target pos = Z.of_nat r
             ∧ pos ≤ Z.of_nat r ∧ (r ≤ j)%nat ∧ occurs_at target text r.
Proof.
  intros Hpos Hj Hocc. unfold Py.find, Py.len.
  assert (j ≤ length text)%nat as Hjl by (destruct Hocc; lia).
  destruct (Z.ltb_spec (Z.of_nat (length text)) pos) as [H|H]; [lia|].
  destruct (find_aux_first target (drop (Z.to_nat pos) text) pos
              (j - Z.to_nat pos)) as (k & Hk & E & Hs).
  - rewrite length_drop. lia.
  - rewrite drop_drop. replace (Z.to_nat pos + (j - Z.to_nat pos))%nat with j by lia.
    by apply startswith_occurs.
  - exists (Z.to_nat pos + k)%nat. rewrite drop_drop in Hs.
    split_and!; [rewrite E; lia | lia | lia |].
    apply startswith_occurs; [lia | done].
Qed.

(** [sub in s] holds exactly when [sub] occurs somewhere in [s]. *)
Lemma contains_occurs (sub s : str) :
  Py.contains sub s = true ↔ ∃ i, occurs_at sub s i.
Proof.
  unfold Py.contains. rewrite negb_true_iff, Z.eqb_neq. split.
  - intros H. destruct (find_found s sub 0) as [E | (r & _ & _ & Hr)];
      [lia | done | by exists r].
  - intros [i Hi].
    destruct (find_complete s sub 0 i) as (r & E & _); [lia | lia | done |].
    rewrite E. lia.
Qed.

(** ** Loops *)

(** A property kept by every continuing iteration holds of the result. *)
Lemma while_true_invariant {S R} (body : S → S + R) (I : S → Prop)
    (Q : R → Prop) :
  (∀ st st', I st → body st = inl st' → I st') →
  (∀ st r, I st → body st = inr r → Q r) →
  ∀ fuel st r n, I st → Py.while_true body fuel st = Some (r, n) → Q r.
Proof.
  intros Hstep Hexit fuel.
  induction fuel as [|fuel IH]; intros st r n Hst Hrun; [done|].
  simpl in Hrun. destruct (body st) as [st'|r'] eqn:E.
  - destruct (Py.while_true body fuel st') as [[r'' n'']|] eqn:E'; [|done].
    simplify_eq. eapply IH; [by eapply Hstep | done].
  - simplify_eq. by eapply Hexit.
Qed.

(** More fuel does not change the outcome of a loop that exits. *)
Lemma while_true_fuel {S R} (body : S → S + R) fuel fuel' st res :
  (fuel ≤ fuel')%nat →
  Py.while_true body fuel st = Some res →
  Py.while_true body fuel' st = Some res.
Proof.
  revert fuel' st res.
  induction fuel as [|fuel IH]; intros fuel' st res Hle Hrun; [done|].
  destruct fuel' as [|fuel']; [lia|].
  simpl in *. destruct (body st) as [st'|r]; [|done].
  destruct (Py.while_true body fuel st') as [[r n]|] eqn:E; [|done].
  by rewrite (IH fuel' st' (r, n)); [|lia|].
Qed.

(** A loop that exits after [n] iterations needs the fuel [n] and no
    more. *)
Lemma while_true_exact {S R} (body : S → S + R) fuel st r n :
  Py.while_true body fuel st = Some (r, n) →
  (n ≤ fuel)%nat ∧ Py.while_true body n st = Some (r, n).
Proof.
  revert st r n. induction fuel as [|fuel IH]; intros st r n Hrun; [done|].
  simpl in Hrun. destruct (body st) as [st'|r'] eqn:E.
  - destruct (Py.while_true body fuel st') as [[r'' n'']|] eqn:E'; [|done].
    simplify_eq. destruct (IH _ _ _ E') as [Hle Hn].
    split; [lia|]. simpl. by rewrite E, Hn.
  - simplify_eq. split; [lia|]. simpl. by rewrite E.
Qed.

(** ** The scan loop of extract_emails *)

Lemma index_nonneg {A} (s : list A) (i : Z) :
  0 ≤ i → Py.index s i = s !! Z.to_nat i.
Proof. intros H. unfold Py.index. by destruct (Z.leb_spec 0 i); [|lia]. Qed.

Lemma slice_inside {A} (s : list A) (a b : Z) :
  0 ≤ a ≤ b → b ≤ Py.len s →
  Py.slice s a b = take (Z.to_nat (b - a)) (drop (Z.to_nat a) s).
Proof.
  intros Hab Hb. unfold Py.slice, Py.clamp.
  destruct (Z.ltb_spec a 0), (Z.ltb_spec b 0); try lia.
  by rewrite !Z.max_r, !Z.min_r by lia.
Qed.

Lemma target_of_length (domain : str) : 1 ≤ Py.len (target_of domain).
Proof. unfold target_of, Py.len. rewrite length_app. simpl. lia. Qed.

(** The inner loop stops at -1 or at the first index, going down, whose
    character is not allowed. *)
Lemma walk_back_spec (text : str) (n : nat) (start : Z) :
  -1 ≤ start → start < Z.of_nat n →
  let r := walk_back text n start in
  -1 ≤ r ≤ start
  ∧ (∀ j, r < j ≤ start → in_allowed (text !! Z.to_nat j) = true)
  ∧ (r = -1 ∨ in_allowed (text !! Z.to_nat r) = false).
Proof.
  revert start. induction n as [|n IH]; intros start Hlo Hhi; simpl.
  - split_and!; [lia | lia | intros; lia | left; lia].
  - destruct (Z.leb_spec 0 start) as [H0|H0]; simpl.
    + rewrite index_nonneg by done.
      destruct (in_allowed (text !! Z.to_nat start)) eqn:E.
      * destruct (IH (start - 1)) as (H1 & H2 & H3); [lia | lia |].
        split_and!; [lia | lia | | done].
        intros j Hj. destruct (decide (j = start)) as [->|]; [done|].
        apply H2. lia.
      * split_and!; [lia | lia | intros; lia | by right].
    + split_and!; [lia | lia | intros; lia | left; lia].
Qed.

(** What one execution of the loop body does: it breaks when [find] answers
    -1; otherwise it moves the position past the occurrence found and adds
    at most one address, which stands in the text bounded on both sides. *)
Lemma scan_body_outcome (text target : str) (pos : Z) (emails : gset str) :
  0 ≤ pos →
  match scan_body text target (pos, emails) with
  | inr res => res = emails ∧ Py.find text target pos = -1
  | inl (pos', emails') =>
      ∃ r : nat,
        Py.find text target pos = Z.of_nat r
        ∧ pos ≤ Z.of_nat r
        ∧ occurs_at target text r
        ∧ pos' = Z.of_nat r + Py.len target
        ∧ (emails' = emails
           ∨ ∃ e i, emails' = {[ e ]} ∪ emails ∧ extracted_at text target e i)
  end.
Proof.
  intros Hpos. unfold scan_body.
  destruct (find_found text target pos Hpos) as [E | (r & E & Hr & Hocc)];
    rewrite E.
  { by simpl. }
  destruct (Z.eqb_spec (Z.of_nat r) (-1)) as [?|_]; [lia|].
  destruct ((Z.of_nat r + Py.len target <? Py.len text)
            && in_allowed (Py.index text (Z.of_nat r + Py.len target)))
    eqn:Hend.
  { exists r. by split_and!; [..|left]. }
  exists r. split_and!; [done..|].
  set (start := walk_back text (Z.to_nat (Z.of_nat r)) (Z.of_nat r - 1)).
  destruct (walk_back_spec text (Z.to_nat (Z.of_nat r)) (Z.of_nat r - 1))
    as (Hs1 & Hs2 & Hs3); [lia | lia |].
  fold start in Hs1, Hs2, Hs3.
  destruct Hocc as [Hbound Htake]. unfold Py.len in *.
  rewrite slice_inside by (unfold Py.len; lia).
  set (i := Z.to_nat (start + 1)).
  set (username := take (Z.to_nat (Z.of_nat r - (start + 1))) (drop i text)).
  case_bool_decide as Hne; [by left|]. right.
  exists (username ++ target), i. split; [done|].
  assert (length username = r - i)%nat as Hlen.
  { unfold username. rewrite length_take, length_drop. lia. }
  exists username. split_and!; [done | done | | | |].
  - apply Forall_lookup. intros k c Hk.
    unfold username in Hk. apply lookup_take_Some in Hk as [Hk Hlt].
    rewrite lookup_drop in Hk.
    specialize (Hs2 (Z.of_nat (i + k))).
    rewrite Nat2Z.id, Hk in Hs2. simpl in Hs2.
    apply (bool_decide_eq_true_1 (c ∈ allowed_chars)). apply Hs2. lia.
  - split; [rewrite length_app; lia|].
    rewrite length_app, <- take_take_drop, Hlen. f_equal.
    + unfold username. f_equal. lia.
    + rewrite drop_drop. replace (i + (r - i))%nat with r by lia. done.
  - unfold outside_allowed. destruct Hs3 as [Hs3|Hs3]; [left; lia|].
    right; right. replace (Z.of_nat i - 1) with start by lia. done.
  - unfold outside_allowed, Py.len. rewrite length_app, Hlen.
    replace (Z.of_nat i + Z.of_nat (r - i + length target))
      with (Z.of_nat r + Z.of_nat (length target)) by lia.
    apply andb_false_iff in Hend as [Hend|Hend].
    + right; left. apply Z.ltb_ge in Hend. lia.
    + right; right. by rewrite index_nonneg in Hend by lia.
Qed.

(** Every address the loop returns stands in the text bounded on both
    sides. *)
Lemma extract_emails_run_sound (text domain : str) fuel emails n e :
  extract_emails_run text domain fuel = Some (emails, n) →
  e ∈ emails →
  ∃ i, extracted_at text (target_of domain) e i.
Proof.
  intros Hrun. revert e. unfold extract_emails_run in Hrun.
  eapply (while_true_invariant (scan_body text (target_of domain))
            (λ st, 0 ≤ st.1 ∧ ∀ e, e ∈ st.2 →
                     ∃ i, extracted_at text (target_of domain) e i)
            (λ res, ∀ e, e ∈ res →
                     ∃ i, extracted_at text (target_of domain) e i));
    [ | | | exact Hrun].
  - intros [pos ems] [pos' ems'] [Hpos Hall] Hbody.
    cbn [fst snd] in Hpos, Hall |- *.
    pose proof (scan_body_outcome text (target_of domain) pos ems Hpos) as H.
    rewrite Hbody in H. destruct H as (r & _ & Hr & _ & -> & Hems).
    split; [unfold Py.len; lia|].
    destruct Hems as [->|(e0 & i0 & -> & He0)]; [done|].
    intros e [->%elem_of_singleton|He]%elem_of_union; eauto.
  - intros [pos ems] res [Hpos Hall] Hbody.
    cbn [fst snd] in Hpos, Hall |- *.
    pose proof (scan_body_outcome text (target_of domain) pos ems Hpos) as H.
    rewrite Hbody in H. by destruct H as [-> _].
  - simpl. split; [lia|]. intros e He. by apply not_elem_of_empty in He.
Qed.

(** The loop exits: from a position [pos] it runs at most
    [len(text) - pos + 1] iterations, of which all but the last move the
    position forward by the length of the target. *)
Lemma scan_loop_exits (text target : str) (fuel : nat) (pos : Z)
    (emails : gset str) :
  1 ≤ Py.len target →
  0 ≤ pos ≤ Py.len text →
  Py.len text - pos < Z.of_nat fuel →
  ∃ res n,
    Py.while_true (scan_body text target) fuel (pos, emails) = Some (res, n)
    ∧ (1 ≤ n)%nat
    ∧ (Z.of_nat n - 1) * Py.len target ≤ Py.len text - pos.
Proof.
  intros Htl. revert pos emails.
  induction fuel as [|fuel IH]; intros pos emails Hpos Hfuel; [lia|].
  pose proof (scan_body_outcome text target pos emails (proj1 Hpos)) as H.
  cbn [Py.while_true].
  destruct (scan_body text target (pos, emails)) as [[pos' emails']|res].
  - destruct H as (r & _ & Hr & [Hb _] & -> & _). unfold Py.len in *.
    destruct (IH (Z.of_nat r + Z.of_nat (length target)) emails')
      as (res & n & -> & Hn & Hbound); [lia | lia |].
    exists res, (S n). split_and!; [done | lia | nia].
  - exists res, 1%nat. split_and!; [done | lia | lia].
Qed.

(** [extract_emails] is the result of the loop: the fuel it is given is
    enough. *)
Lemma extract_emails_run_total (text domain : str) :
  ∃ n, extract_emails_run text domain (S (length text))
       = Some (extract_emails text domain, n)
       ∧ (1 ≤ n ≤ S (length text))%nat
       ∧ (Z.of_nat n - 1) * Py.len (target_of domain) ≤ Py.len text.
Proof.
  pose proof (target_of_length domain) as Htl.
  destruct (scan_loop_exits text (target_of domain) (S (length text)) 0 ∅)
    as (res & n & Hrun & Hn & Hbound);
    [done | unfold Py.len; lia | unfold Py.len; lia |].
  exists n. unfold extract_emails. fold (extract_emails_run text domain (S (length text))) in Hrun.
  rewrite Hrun. split_and!; [done | lia | | lia].
  unfold Py.len in *. nia.
Qed.

(** Every address [extract_emails] returns ends with the target, has a
    non-empty local part of allowed characters and stands in the text
    bounded on both sides by a character that is not allowed or by an end
    of the text. *)
Lemma extract_emails_sound (text domain e : str) :
  e ∈ extract_emails text domain →
  ∃ i, extracted_at text (target_of domain) e i.
Proof.
  destruct (extract_emails_run_total text domain) as (n & Hrun & _).
  intros He. by eapply extract_emails_run_sound.
Qed.

(** The allowed characters are the letters, the digits and [_], [.], [-]. *)
Lemma allowed_chars_spec (c : ascii) :
  bool_decide (c ∈ allowed_chars)
  = Py.is_alnum c || bool_decide (c ∈ py "_.-").
Proof. destruct c as [[] [] [] [] [] [] [] []]; vm_compute; reflexivity. Qed.

(** The example of the specification: a longer domain is not matched. *)
Example extract_emails_superstring :
  extract_emails (py "contact: x@example.com.au") (py "example.com") = ∅.
Proof. vm_compute. reflexivity. Qed.

Example extract_emails_dedup :
  extract_emails (py "a@x.com b@x.com a@x.com") (py "x.com")
  = {[ py "a@x.com"; py "b@x.com" ]}.
Proof. vm_compute. reflexivity. Qed.

(** ** The target of the search *)

Lemma replace_aux_absent (old new s : str) :
  (∀ i, (i ≤ length s)%nat → Py.startswith (drop i s) old = false) →
  Py.replace_aux old new s 0 = s.
Proof.
  induction s as [|c s IH]; intros H; [done|].
  cbn [Py.replace_aux].
  assert (Py.startswith (c :: s) old = false) as ->
    by (apply (H 0%nat); simpl; lia).
  f_equal.
  apply IH. intros i Hi. apply (H (S i)). simpl. lia.
Qed.

Lemma contains_false_absent (sub s : str) (i : nat) :
  Py.contains sub s = false → (i ≤ length s)%nat →
  Py.startswith (drop i s) sub = false.
Proof.
  intros Hc Hi. apply not_true_is_false. intros H.
  apply startswith_occurs in H; [|done].
  assert (Py.contains sub s = true) by (apply contains_occurs; eauto).
  congruence.
Qed.

(** Where [www.] occurs in the domain as a leading prefix at most, the
    target is ["@"] followed by the domain without that prefix. *)
Lemma target_of_leading_www (domain : str) :
  Py.contains (py "www.") (strip_leading_www_spec domain) = false →
  target_of domain = py "@" ++ strip_leading_www_spec domain.
Proof.
  unfold target_of, strip_leading_www_spec, Py.replace. intros H. f_equal.
  destruct (Py.startswith domain (py "www.")) eqn:E.
  - apply startswith_prefix in E as [rest ->].
    change (py "www." ++ rest)
      with ("w"%char :: "w"%char :: "w"%char :: "."%char :: rest) in *.
    cbn [drop] in H. cbn. apply replace_aux_absent.
    intros i Hi. by apply contains_false_absent.
  - apply replace_aux_absent. intros i Hi. by apply contains_false_absent.
Qed.

(** For such a domain every address returned ends with ["@"] followed by the
    domain without its leading [www.], has a non-empty local part of
    allowed characters and is bounded on both sides in the text. *)
Lemma extract_emails_sound_leading_www (text domain e : str) :
  Py.contains (py "www.") (strip_leading_www_spec domain) = false →
  e ∈ extract_emails text domain →
  ∃ i, extracted_at text (py "@" ++ strip_leading_www_spec domain) e i.
Proof.
  intros Hwww He. rewrite <- (target_of_leading_www domain Hwww).
  by apply extract_emails_sound.
Qed.

Example target_of_www :
  target_of (py "www.example.com") = py "@example.com"
  ∧ target_of (py "example.com") = py "@example.com".
Proof. split; reflexivity. Qed.

(** C2 (the code departs from the claim).  The claim: the target is ["@"]
    followed by the domain with a leading [www.] stripped, an occurrence of
    [www.] elsewhere being left in place.  The code removes every
    occurrence: for the host [mywww.example.com] the target is
    [@myexample.com], where the claim gives [@mywww.example.com].  (Both
    agree on [www.example.com] and [example.com], see [target_of_www], and
    wherever [www.] occurs as a leading prefix at most, see
    [target_of_leading_www].) *)
Theorem target_of_inner_www :
  target_of (py "mywww.example.com") = py "@myexample.com"
  ∧ py "@" ++ strip_leading_www_spec (py "mywww.example.com")
    = py "@mywww.example.com"
  ∧ target_of (py "mywww.example.com")
    ≠ py "@" ++ strip_leading_www_spec (py "mywww.example.com").
Proof. split_and!; [reflexivity | reflexivity | discriminate]. Qed.

(** C1 (the code departs from the claim).  The claim: every string
    [extract_emails(T, D)] returns ends with ["@"] followed by [D] without
    a leading [www.], has a non-empty local part of allowed characters and
    stands in [T] bounded on both sides.  On the page text
    [x@myexample.com] of the host [mywww.example.com] the code returns
    [x@myexample.com], which does not end with [@mywww.example.com]: the
    target was built by removing [www.] inside the host name.  (The rest of
    the claim holds of the code with the target it builds, see
    [extract_emails_sound] and [extract_emails_superstring].) *)
Theorem extract_emails_inner_www :
  extract_emails (py "x@myexample.com") (py "mywww.example.com")
  = {[ py "x@myexample.com" ]}
  ∧ ¬ (py "@" ++ strip_leading_www_spec (py "mywww.example.com"))
      `suffix_of` py "x@myexample.com".
Proof.
  split; [vm_compute; reflexivity|].
  apply (bool_decide_eq_false_1 _). vm_compute. reflexivity.
Qed.

(** The claim C10 as it is stated fails on the empty page: the loop runs
    its body once, to find no occurrence and exit, and [len(text)] is 0.
    It also fails when the text is made of targets only. *)
Lemma extract_emails_iterations_counterexample :
  (extract_emails_run (py "") (py "example.com") 1 = Some (∅, 1%nat)
   ∧ ¬ (1 ≤ length (py ""))%nat)
  ∧ (extract_emails_run (py "@@@") (py "") 4 = Some (∅, 4%nat)
     ∧ ¬ (4 ≤ length (py "@@@"))%nat).
Proof. split; (split; [vm_compute; reflexivity | simpl; lia]). Qed.

(** C10, amended.  [extract_emails] terminates on every input: the target
    has at least one character; an iteration of the scan loop that does not
    exit moves the search position forward by at least the length of the
    target, and not past the end of the text; so the loop runs at most
    [len(text) // len(target)] such iterations and then the one that
    exits, at most [len(text) + 1] iterations in all: with any fuel of
    that many iterations or more the loop returns the result of
    [extract_emails]. *)
Theorem extract_emails_iterations (text domain : str) :
  1 ≤ Py.len (target_of domain)
  ∧ (∀ pos emails pos' emails',
       0 ≤ pos →
       scan_body text (target_of domain) (pos, emails) = inl (pos', emails') →
       pos + Py.len (target_of domain) ≤ pos' ≤ Py.len text)
  ∧ ∃ n,
      (n ≤ length text + 1)%nat
      ∧ (Z.of_nat n - 1) * Py.len (target_of domain) ≤ Py.len text
      ∧ ∀ fuel, (n ≤ fuel)%nat →
                extract_emails_run text domain fuel
                = Some (extract_emails text domain, n).
Proof.
  split_and!.
  - apply target_of_length.
  - intros pos emails pos' emails' Hpos Hbody.
    pose proof (scan_body_outcome text (target_of domain) pos emails Hpos) as H.
    rewrite Hbody in H. destruct H as (r & _ & Hr & [Hb _] & -> & _).
    unfold Py.len. lia.
  - destruct (extract_emails_run_total text domain) as (n & Hrun & Hn & Hb).
    exists n. split_and!; [lia | done |].
    intros fuel Hfuel. apply while_true_exact in Hrun as [_ Hrun].
    by apply (while_true_fuel _ n fuel).
Qed.

Lemma extract_emails_iterations_witness :
  scan_body (py "a@x.com b@x.com") (target_of (py "x.com")) (0, ∅)
  = inl (7, {[ py "a@x.com" ]})
  ∧ 0 + Py.len (target_of (py "x.com")) ≤ 7 ≤ Py.len (py "a@x.com b@x.com").
Proof.
  assert (scan_body (py "a@x.com b@x.com") (target_of (py "x.com")) (0, ∅)
          = inl (7, {[ py "a@x.com" ]})) as H by (vm_compute; reflexivity).
  split; [exact H|].
  destruct (extract_emails_iterations (py "a@x.com b@x.com") (py "x.com"))
    as (_ & Hstep & _).
  apply (Hstep 0 ∅ 7 {[ py "a@x.com" ]}); [lia | exact H].
Defined.

(** ** The whole-word check *)

Lemma occurs_at_lookup (kw s : str) (i k : nat) :
  occurs_at kw s i → (k < length kw)%nat → s !! (i + k)%nat = kw !! k.
Proof.
  intros [_ H] Hk. rewrite <- H.
  by rewrite lookup_take_lt, lookup_drop by done.
Qed.

(** The regular expression [\b kw \b] is found exactly where [kw] occurs
    with a word boundary at each end. *)
Lemma whole_word_match_boundaries (keyword path : str) :
  whole_word_match keyword path = true
  ↔ ∃ i, occurs_at (Py.lower keyword) path i
         ∧ Re.boundary path i = true
         ∧ Re.boundary path (i + length (Py.lower keyword)) = true.
Proof.
  unfold whole_word_match, Re.search, Re.escape.
  rewrite existsb_exists. cbn [Re.match_at]. split.
  - intros (i & Hi & H). apply in_seq in Hi.
    rewrite !andb_true_iff in H. destruct H as (H1 & H2 & H3 & _).
    exists i. split_and!; [|done..].
    apply startswith_occurs; [lia | done].
  - intros (i & Hocc & H1 & H2). exists i. split.
    + apply in_seq. destruct Hocc. lia.
    + rewrite !andb_true_iff. split_and!; [done| |done..].
      apply startswith_occurs; [destruct Hocc; lia | done].
Qed.

(** A match of the whole-word check is an occurrence of the keyword. *)
Lemma whole_word_match_contains (keyword path : str) :
  whole_word_match keyword path = true →
  Py.contains (Py.lower keyword) path = true.
Proof.
  intros (i & H & _)%whole_word_match_boundaries.
  apply contains_occurs. by exists i.
Qed.

(** The claim C6 as it is stated fails: [about] occurs in [/about_us]
    between a slash and an underscore, neither of them alphanumeric, and
    the check fails, the underscore being a word character of [\b]; and a
    keyword that begins with a character that is not a word character is
    not found at the start of the path, where [\b] asks for a word
    character on one side. *)
Lemma whole_word_match_counterexample :
  (whole_word_match (py "about") (py "/about_us") = false
   ∧ bounded_at Py.is_alnum (Py.lower (py "about")) (py "/about_us") 1)
  ∧ (whole_word_match (py "/about") (py "/about") = false
     ∧ bounded_at Py.is_alnum (Py.lower (py "/about")) (py "/about") 0).
Proof.
  split; (split; [reflexivity|]);
    (split; [split; [simpl; lia | reflexivity] | split; reflexivity]).
Qed.

Section WordFacts.

Context {C : Type} `{EqDecision C}.
Variable alnum : C → bool.
Variable underscore : C.

Lemma word_startswith_prefix (s p : list C) :
  Word.startswith s p = true ↔ p `prefix_of` s.
Proof.
  revert s. induction p as [|c p IH]; intros s; simpl.
  - split; [intros _; apply prefix_nil | done].
  - destruct s as [|d s].
    + split; [done | intros H; by apply prefix_nil_not in H].
    + rewrite andb_true_iff, bool_decide_eq_true, IH. split.
      * intros [-> H]. by apply prefix_cons.
      * intros H. split; [by apply prefix_cons_inv_1 in H
                         | by apply prefix_cons_inv_2 in H].
Qed.

Lemma word_startswith_occurs (kw s : list C) (i : nat) :
  (i ≤ length s)%nat →
  Word.startswith (drop i s) kw = true ↔ Word.occurs_at kw s i.
Proof.
  intros Hi. rewrite word_startswith_prefix. unfold Word.occurs_at. split.
  - intros [r Hr]. split.
    + apply (f_equal length) in Hr.
      rewrite length_drop, length_app in Hr. lia.
    + by rewrite Hr, take_app_length.
  - intros [_ H]. exists (drop (length kw) (drop i s)).
    rewrite <- H at 1. by rewrite take_drop.
Qed.

Lemma word_occurs_at_lookup (kw s : list C) (i k : nat) :
  Word.occurs_at kw s i → (k < length kw)%nat → s !! (i + k)%nat = kw !! k.
Proof.
  intros [_ H] Hk. rewrite <- H.
  by rewrite lookup_take_lt, lookup_drop by done.
Qed.

(** The pattern [\b kw \b] is found exactly where [kw] occurs with a word
    boundary at each end. *)
Lemma word_search_boundaries (kw path : list C) :
  Word.search alnum underscore
    [Word.Boundary; Word.Literal kw; Word.Boundary] path = true
  ↔ ∃ i, Word.occurs_at kw path i
         ∧ Word.boundary alnum underscore path i = true
         ∧ Word.boundary alnum underscore path (i + length kw) = true.
Proof.
  unfold Word.search. rewrite existsb_exists. cbn [Word.match_at]. split.
  - intros (i & Hi & H). apply in_seq in Hi.
    rewrite !andb_true_iff in H. destruct H as (H1 & H2 & H3 & _).
    exists i. split_and!; [|done..].
    apply word_startswith_occurs; [lia | done].
  - intros (i & Hocc & H1 & H2). exists i. split.
    + apply in_seq. destruct Hocc. lia.
    + rewrite !andb_true_iff. split_and!; [done| |done..].
      apply word_startswith_occurs; [destruct Hocc; lia | done].
Qed.

Variable lower : list C → list C.

(** C6, amended.  For a keyword that, lower-cased, begins and ends with a
    word character, the whole-word check of [prioritize_links] succeeds
    exactly when the lower-cased keyword occurs in the lower-cased path
    bounded on both sides by a character that is not a word character or
    by the start or the end of the path.  The word characters are those of
    [\b]: the alphanumeric characters and the underscore; a slash, a
    hyphen or a dot bounds a word, the underscore does not.  This holds
    for every alphabet, every class of alphanumeric characters and every
    case folding, and so for those of Python. *)
Theorem whole_word_match_spec (keyword path : list C) :
  Word.word_at alnum underscore (lower keyword) 0 = true →
  Word.word_before alnum underscore (lower keyword)
    (length (lower keyword)) = true →
  Word.whole_word_match alnum underscore lower keyword path = true
  ↔ ∃ i, Word.bounded_at alnum underscore (lower keyword) path i.
Proof.
  unfold Word.whole_word_match, Word.escape.
  set (kw := lower keyword). intros Hfirst Hlast.
  rewrite word_search_boundaries.
  assert (∀ i, Word.occurs_at kw path i →
               Word.word_at alnum underscore path i = true
               ∧ Word.word_before alnum underscore path (i + length kw)
                 = true) as Hin.
  { intros i Hocc. split.
    - unfold Word.word_at in *. rewrite <- (Nat.add_0_r i).
      rewrite (word_occurs_at_lookup kw path i 0); [done | done |].
      destruct kw; [discriminate Hfirst | simpl; lia].
    - destruct (length kw) as [|n] eqn:En; [discriminate Hlast|].
      rewrite Nat.add_succ_r. cbn [Word.word_before] in *.
      unfold Word.word_at in *.
      rewrite (word_occurs_at_lookup kw path i n); [done | done | lia]. }
  unfold Word.bounded_at, Word.boundary.
  split; intros (i & Hocc & H1 & H2); exists i;
    destruct (Hin i Hocc) as [Ha Hb]; (split; [done|]);
    rewrite ?Ha, ?Hb in *.
  - split.
    + by destruct (Word.word_before alnum underscore path i).
    + by destruct (Word.word_at alnum underscore path (i + length kw)).
  - by rewrite H1, H2.
Qed.

End WordFacts.

(** The search of the file is the search for the 8-bit characters with the
    ASCII letters and digits and the ASCII folding. *)
Lemma whole_word_match_instance (keyword path : str) :
  whole_word_match keyword path
  = Word.whole_word_match Py.is_alnum "_"%char Py.lower keyword path.
Proof.
  assert (∀ p s : str, Py.startswith s p = Word.startswith s p) as Hsw.
  { intros p. induction p as [|c p IH]; intros [|d s]; simpl; try done;
      by rewrite IH. }
  unfold whole_word_match, Word.whole_word_match, Re.search, Word.search,
    Re.escape, Word.escape.
  assert (∀ i,
            Re.match_at
              [Re.Boundary; Re.Literal (Py.lower keyword); Re.Boundary] path i
            = Word.match_at Py.is_alnum "_"%char
                [Word.Boundary; Word.Literal (Py.lower keyword);
                 Word.Boundary] path i) as Hpt.
  { intros i. cbn [Re.match_at Word.match_at]. by rewrite Hsw. }
  generalize (seq 0 (S (length path))). intros l.
  induction l as [|i l IH]; [done|].
  cbn [existsb]. by rewrite IH, Hpt.
Qed.

Lemma whole_word_match_spec_witness :
  Word.whole_word_match Py.is_alnum "_"%char Py.lower (py "About")
    (py "/about-us") = true
  ↔ ∃ i, Word.bounded_at Py.is_alnum "_"%char (Py.lower (py "About"))
           (py "/about-us") i.
Proof.
  apply (whole_word_match_spec Py.is_alnum "_"%char Py.lower (py "About")
           (py "/about-us")); reflexivity.
Defined.

(** With a class of alphanumeric characters that holds the e acute, the
    keyword [about] is not a whole word of the path [/about] followed by an
    e acute, and it is one where that letter is not alphanumeric: the
    answer depends on the class, as the amended statement says. *)
Example whole_word_match_e_acute :
  Word.whole_word_match alnum_latin "_"%char Py.lower (py "about")
    (py "/about" ++ ["233"%char]) = false
  ∧ Word.whole_word_match Py.is_alnum "_"%char Py.lower (py "about")
      (py "/about" ++ ["233"%char]) = true.
Proof. split; reflexivity. Qed.

(** ** Sorting by key *)

Section SortedFacts.

Context {A K : Type} (lt : K → K → bool) (key : A → K).

Hypothesis lt_asym : ∀ a b, lt a b = true → lt b a = false.
Hypothesis le_trans :
  ∀ a b c, lt b a = false → lt c b = false → lt c a = false.

Lemma lt_irrefl (a : K) : lt a a = false.
Proof.
  destruct (lt a a) eqn:E; [|done]. by rewrite (lt_asym _ _ E) in E.
Qed.

Lemma insert_by_perm (x : A) (l : list A) : insert_by lt key x l ≡ₚ x :: l.
Proof.
  induction l as [|y l IH]; simpl; [done|].
  destruct (lt (key y) (key x)); [|done].
  rewrite IH. apply Permutation_swap.
Qed.

Lemma sorted_perm (l : list A) : sorted lt key l ≡ₚ l.
Proof.
  induction l as [|x l IH]; simpl; [done|].
  by rewrite insert_by_perm, IH.
Qed.

Lemma insert_by_sorted (x : A) (l : list A) :
  StronglySorted (key_le lt key) l →
  StronglySorted (key_le lt key) (insert_by lt key x l).
Proof.
  induction 1 as [|y l Hs IH Hy]; simpl.
  - repeat constructor.
  - destruct (lt (key y) (key x)) eqn:E.
    + constructor; [done|].
      apply Forall_forall. intros z Hz.
      rewrite insert_by_perm in Hz.
      apply elem_of_cons in Hz as [->|Hz].
      * by apply lt_asym.
      * rewrite Forall_forall in Hy. by apply Hy.
    + constructor; [by constructor|].
      constructor; [done|].
      eapply Forall_impl; [exact Hy|]. intros z Hz.
      unfold key_le in *. by eapply le_trans.
Qed.

Lemma sorted_sorted (l : list A) :
  StronglySorted (key_le lt key) (sorted lt key l).
Proof.
  induction l as [|x l IH]; simpl; [constructor | by apply insert_by_sorted].
Qed.

(** Insertion puts the element before the elements of the same key. *)
Lemma insert_by_filter `{EqDecision K} (k : K) (x : A) (l : list A) :
  filter (λ y, key y = k) (insert_by lt key x l)
  = filter (λ y, key y = k) (x :: l).
Proof.
  induction l as [|y l IH]; simpl; [done|].
  destruct (lt (key y) (key x)) eqn:E; [|done].
  assert (key y ≠ key x) as Hne.
  { intros Heq. rewrite Heq in E. pose proof (lt_asym _ _ E). congruence. }
  rewrite (filter_cons _ y), IH, !(filter_cons _ x), (filter_cons _ y).
  repeat case_decide; congruence.
Qed.

Lemma sorted_stable `{EqDecision K} (k : K) (l : list A) :
  filter (λ y, key y = k) (sorted lt key l) = filter (λ y, key y = k) l.
Proof.
  induction l as [|x l IH]; simpl; [done|].
  rewrite insert_by_filter, !filter_cons, IH. done.
Qed.

(** A list in which no key is smaller than another is left as it is. *)
Lemma sorted_id (l : list A) :
  (∀ x y, x ∈ l → y ∈ l → lt (key x) (key y) = false) →
  sorted lt key l = l.
Proof.
  induction l as [|x l IH]; intros H; simpl; [done|].
  rewrite IH by (intros; apply H; by constructor).
  destruct l as [|y l]; simpl; [done|].
  rewrite H; [done | by repeat constructor | by constructor].
Qed.

(** Two ascending lists with the same elements of each key, in the same
    order, are equal: where keys that are not smaller than each other are
    equal, the result of a stable sort does not depend on the algorithm. *)
Lemma stable_sorted_unique `{EqDecision K} (l1 l2 : list A) :
  (∀ a b, lt a b = false → lt b a = false → a = b) →
  StronglySorted (key_le lt key) l1 →
  StronglySorted (key_le lt key) l2 →
  (∀ k, filter (λ y, key y = k) l1 = filter (λ y, key y = k) l2) →
  l1 = l2.
Proof.
  intros Htotal Hs1. revert l2.
  induction Hs1 as [|x l1 Hs1 IH Hx]; intros l2 Hs2 Hf.
  - destruct l2 as [|y l2]; [done|].
    specialize (Hf (key y)). rewrite filter_cons_True in Hf by done. done.
  - destruct Hs2 as [|y l2 Hs2 Hy].
    + specialize (Hf (key x)). rewrite filter_cons_True in Hf by done. done.
    + assert (key_le lt key x y) as Hxy.
      { destruct (decide (key x = key y)) as [Heq|Hne];
          [unfold key_le; rewrite Heq; apply lt_irrefl|].
        pose proof (Hf (key y)) as Hfy.
        rewrite (filter_cons_True _ y), (filter_cons_False _ x) in Hfy
          by (done || congruence).
        assert (y ∈ l1) as Hin.
        { eapply (list_elem_of_filter (λ z, key z = key y)).
          rewrite Hfy. by left. }
        rewrite Forall_forall in Hx. by apply Hx. }
      assert (key_le lt key y x) as Hyx.
      { destruct (decide (key x = key y)) as [Heq|Hne];
          [unfold key_le; rewrite Heq; apply lt_irrefl|].
        pose proof (Hf (key x)) as Hfx.
        rewrite filter_cons_True, (filter_cons_False _ y) in Hfx
          by (done || congruence).
        assert (x ∈ l2) as Hin.
        { eapply (list_elem_of_filter (λ z, key z = key x)).
          rewrite <- Hfx. by left. }
        rewrite Forall_forall in Hy. by apply Hy. }
      assert (key x = key y) as Hk by (by apply Htotal).
      assert (x = y) as ->.
      { specialize (Hf (key x)).
        rewrite filter_cons_True, (filter_cons_True _ y) in Hf by done.
        by simplify_eq. }
      f_equal. apply IH; [done|]. intros k. specialize (Hf k).
      rewrite !filter_cons in Hf. case_decide; by simplify_eq.
Qed.

Lemma sorted_unique `{EqDecision K} (l l' : list A) :
  (∀ a b, lt a b = false → lt b a = false → a = b) →
  StronglySorted (key_le lt key) l' →
  (∀ k, filter (λ y, key y = k) l' = filter (λ y, key y = k) l) →
  l' = sorted lt key l.
Proof.
  intros Htotal Hs Hf.
  apply stable_sorted_unique; [done | done | apply sorted_sorted |].
  intros k. by rewrite sorted_stable.
Qed.

End SortedFacts.

Lemma score_lt_asym (a b : score) : score_lt a b = true → score_lt b a = false.
Proof.
  destruct a, b; simpl; try done.
  intros H%Nat.ltb_lt. apply Nat.ltb_ge. lia.
Qed.

Lemma score_le_trans (a b c : score) :
  score_lt b a = false → score_lt c b = false → score_lt c a = false.
Proof.
  destruct a, b, c; simpl; try done.
  rewrite !Nat.ltb_ge. lia.
Qed.

Lemma score_lt_total (a b : score) :
  score_lt a b = false → score_lt b a = false → a = b.
Proof.
  destruct a, b; simpl; try done.
  rewrite !Nat.ltb_ge. intros. f_equal. lia.
Qed.

(** ** Loops with an early return *)

Lemma for_enumerate_first {A R} (body : nat → A → option R) (xs : list A)
    (start i : nat) (x : A) (r : R) :
  xs !! i = Some x →
  body (start + i)%nat x = Some r →
  (∀ j y, (j < i)%nat → xs !! j = Some y → body (start + j)%nat y = None) →
  Py.for_enumerate body xs start = Some r.
Proof.
  revert start i. induction xs as [|z xs IH]; intros start i Hx Hr Hbefore;
    [done|].
  destruct i as [|i]; simpl in *.
  - simplify_eq. by rewrite Nat.add_0_r in Hr; rewrite Hr.
  - assert (body start z = None) as ->.
    { specialize (Hbefore 0%nat z). rewrite Nat.add_0_r in Hbefore.
      apply Hbefore; [lia | done]. }
    apply (IH (S start) i); [done | |].
    + by replace (S start + i)%nat with (start + S i)%nat by lia.
    + intros j y Hj Hy.
      replace (S start + j)%nat with (start + S j)%nat by lia.
      apply Hbefore; [lia | done].
Qed.

Lemma for_enumerate_none {A R} (body : nat → A → option R) (xs : list A)
    (start : nat) :
  Py.for_enumerate body xs start = None
  ↔ ∀ j y, xs !! j = Some y → body (start + j)%nat y = None.
Proof.
  revert start. induction xs as [|z xs IH]; intros start; simpl.
  - split; [intros _ j y Hj; done | done].
  - split.
    + intros H. destruct (body start z) eqn:E; [done|].
      intros [|j] y Hj; simpl in Hj.
      * simplify_eq. by rewrite Nat.add_0_r.
      * replace (start + S j)%nat with (S start + j)%nat by lia.
        by apply (proj1 (IH (S start)) H).
    + intros H. assert (body start z = None) as ->.
      { specialize (H 0%nat z). rewrite Nat.add_0_r in H. by apply H. }
      apply IH. intros j y Hj.
      replace (S start + j)%nat with (start + S j)%nat by lia.
      by apply H.
Qed.

(** The loop returns at the first element for which its body does. *)
Lemma for_enumerate_some {A R} (body : nat → A → option R) (xs : list A)
    (start : nat) (r : R) :
  Py.for_enumerate body xs start = Some r →
  ∃ i x, xs !! i = Some x
         ∧ body (start + i)%nat x = Some r
         ∧ ∀ j y, (j < i)%nat → xs !! j = Some y →
                  body (start + j)%nat y = None.
Proof.
  revert start. induction xs as [|z xs IH]; intros start H; [done|].
  simpl in H. destruct (body start z) as [r'|] eqn:E.
  - simplify_eq. exists 0%nat, z. rewrite Nat.add_0_r.
    split_and!; [done | done | intros; lia].
  - destruct (IH _ H) as (i & x & Hx & Hr & Hbefore).
    exists (S i), x. split_and!; [done | |].
    + by replace (start + S i)%nat with (S start + i)%nat by lia.
    + intros [|j] y Hj Hy; simpl in Hy.
      * simplify_eq. by rewrite Nat.add_0_r.
      * replace (start + S j)%nat with (S start + j)%nat by lia.
        apply (Hbefore j y); [lia | done].
Qed.

(** ** priority_score and prioritize_links *)

Lemma StronglySorted_lookup {A} (R : A → A → Prop) (l : list A)
    (i j : nat) (x y : A) :
  StronglySorted R l → (i < j)%nat →
  l !! i = Some x → l !! j = Some y → R x y.
Proof.
  intros Hs. revert i j. induction Hs as [|z l Hs IH Hz]; intros i j Hij Hi Hj;
    [done|].
  destruct j as [|j]; [lia|]. simpl in Hj.
  destruct i as [|i]; simpl in Hi.
  - simplify_eq. rewrite Forall_forall in Hz. apply Hz.
    by eapply list_elem_of_lookup_2.
  - apply (IH i j); [lia | done | done].
Qed.

Section PrioritizerFacts.

Variable urlparse : str → ParseResult.

Local Abbreviation path_of link := (Py.lower (path (urlparse (url link)))).
Local Abbreviation score_of kws := (priority_score urlparse kws).

(** The first keyword that matches as a whole word gives its index. *)
Lemma priority_score_whole (kws : list str) (link : Link) (i : nat)
    (kw : str) :
  kws !! i = Some kw →
  whole_word_match kw (path_of link) = true →
  (∀ j kw', (j < i)%nat → kws !! j = Some kw' →
            whole_word_match kw' (path_of link) = false) →
  score_of kws link = Rank i.
Proof.
  intros Hi Hm Hbefore. unfold priority_score.
  rewrite (for_enumerate_first _ kws 0 i kw (Rank i)); [done | done | |].
  - by rewrite Hm.
  - intros j y Hj Hy. by rewrite (Hbefore j y).
Qed.

(** Without a whole-word match, the first keyword contained in the path
    gives its index plus the number of keywords. *)
Lemma priority_score_partial (kws : list str) (link : Link) (i : nat)
    (kw : str) :
  (∀ j kw', kws !! j = Some kw' →
            whole_word_match kw' (path_of link) = false) →
  kws !! i = Some kw →
  Py.contains (Py.lower kw) (path_of link) = true →
  (∀ j kw', (j < i)%nat → kws !! j = Some kw' →
            Py.contains (Py.lower kw') (path_of link) = false) →
  score_of kws link = Rank (i + length kws).
Proof.
  intros Hwhole Hi Hc Hbefore. unfold priority_score.
  rewrite (proj2 (for_enumerate_none _ kws 0));
    [|intros j y Hy; by rewrite (Hwhole j y)].
  rewrite (for_enumerate_first _ kws 0 i kw (Rank (i + length kws)));
    [done | done | |].
  - by rewrite Hc.
  - intros j y Hj Hy. by rewrite (Hbefore j y).
Qed.

(** Without any keyword contained in the path the score is infinite. *)
Lemma priority_score_infinity (kws : list str) (link : Link) :
  (∀ j kw, kws !! j = Some kw →
           Py.contains (Py.lower kw) (path_of link) = false) →
  score_of kws link = Infinity.
Proof.
  intros Hnone. unfold priority_score.
  rewrite (proj2 (for_enumerate_none _ kws 0)).
  - rewrite (proj2 (for_enumerate_none _ kws 0)); [done|].
    intros j y Hy. by rewrite (Hnone j y).
  - intros j y Hy.
    destruct (whole_word_match y (path_of link)) eqn:E; [|done].
    apply whole_word_match_contains in E. rewrite (Hnone j y) in E; done.
Qed.

(** A link with a whole-word match scores below the number of keywords. *)
Lemma priority_score_whole_bound (kws : list str) (link : Link) (i : nat)
    (kw : str) :
  kws !! i = Some kw →
  whole_word_match kw (path_of link) = true →
  ∃ k, score_of kws link = Rank k ∧ (k < length kws)%nat.
Proof.
  intros Hi Hm. unfold priority_score.
  destruct (Py.for_enumerate _ kws 0%nat) as [s|] eqn:E.
  - apply for_enumerate_some in E as (k & x & Hk & Hr & _).
    destruct (whole_word_match x (path_of link)); [|done].
    simplify_eq. exists k. split; [done|]. by eapply lookup_lt_Some.
  - rewrite for_enumerate_none in E. specialize (E i kw Hi).
    by rewrite Hm in E.
Qed.

(** A link without one scores the number of keywords at least. *)
Lemma priority_score_no_whole (kws : list str) (link : Link) :
  (∀ j kw, kws !! j = Some kw →
           whole_word_match kw (path_of link) = false) →
  score_of kws link = Infinity
  ∨ ∃ k, score_of kws link = Rank (k + length kws).
Proof.
  intros Hwhole. unfold priority_score.
  rewrite (proj2 (for_enumerate_none _ kws 0));
    [|intros j y Hy; by rewrite (Hwhole j y)].
  destruct (Py.for_enumerate _ kws 0%nat) as [s|] eqn:E; [|by left].
  apply for_enumerate_some in E as (k & x & Hk & Hr & _).
  destruct (Py.contains (Py.lower x) (path_of link)); [|done].
  simplify_eq. right. by exists k.
Qed.

Lemma prioritize_links_perm (links : list Link) (kws : list str) :
  prioritize_links urlparse links kws ≡ₚ links.
Proof. apply sorted_perm. Qed.

Lemma prioritize_links_ascending (links : list Link) (kws : list str) :
  StronglySorted (λ x y, score_le (score_of kws x) (score_of kws y))
    (prioritize_links urlparse links kws).
Proof.
  apply (sorted_sorted score_lt (score_of kws));
    [apply score_lt_asym | apply score_le_trans].
Qed.

(** The result is the only list that is ascending by score and keeps the
    links of each score in their input order. *)
Lemma prioritize_links_unique (links result : list Link) (kws : list str) :
  StronglySorted (λ x y, score_le (score_of kws x) (score_of kws y)) result →
  (∀ s, filter (λ l, score_of kws l = s) result
        = filter (λ l, score_of kws l = s) links) →
  result = prioritize_links urlparse links kws.
Proof.
  intros Hs Hf.
  eapply (sorted_unique score_lt (score_of kws) score_lt_asym
            score_le_trans); [apply score_lt_total | done | done].
Qed.

(** C7.  The score of a link: the index of the first keyword, in the
    caller's order, that matches the path as a whole word; failing that,
    the index of the first keyword contained in the path plus the number of
    keywords, so that a link without a whole-word match always scores
    strictly above a link with one; failing that too, infinity, and no link
    of a finite score follows such a link in the result.  On the paths
    [/about] and [/network] with the keywords [work] and [about] the result
    is [/about], [/network], in whichever order they are given. *)
Theorem priority_score_spec (kws : list str) :
  (∀ link i kw,
     kws !! i = Some kw →
     whole_word_match kw (path_of link) = true →
     (∀ j kw', (j < i)%nat → kws !! j = Some kw' →
               whole_word_match kw' (path_of link) = false) →
     score_of kws link = Rank i)
  ∧ (∀ link i kw,
       (∀ j kw', kws !! j = Some kw' →
                 whole_word_match kw' (path_of link) = false) →
       kws !! i = Some kw →
       Py.contains (Py.lower kw) (path_of link) = true →
       (∀ j kw', (j < i)%nat → kws !! j = Some kw' →
                 Py.contains (Py.lower kw') (path_of link) = false) →
       score_of kws link = Rank (i + length kws))
  ∧ (∀ link1 link2 i kw,
       kws !! i = Some kw →
       whole_word_match kw (path_of link1) = true →
       (∀ j kw', kws !! j = Some kw' →
                 whole_word_match kw' (path_of link2) = false) →
       score_lt (score_of kws link1) (score_of kws link2) = true)
  ∧ (∀ link,
       (∀ j kw, kws !! j = Some kw →
                Py.contains (Py.lower kw) (path_of link) = false) →
       score_of kws link = Infinity)
  ∧ (∀ links i j x y,
       (i < j)%nat →
       prioritize_links urlparse links kws !! i = Some x →
       prioritize_links urlparse links kws !! j = Some y →
       score_of kws x = Infinity → score_of kws y = Infinity)
  ∧ (∀ about network,
       path (urlparse (url about)) = py "/about" →
       path (urlparse (url network)) = py "/network" →
       prioritize_links urlparse [about; network] [py "work"; py "about"]
       = [about; network]
       ∧ prioritize_links urlparse [network; about] [py "work"; py "about"]
         = [about; network]).
Proof.
  split_and!.
  - intros. by eapply priority_score_whole.
  - intros. by eapply priority_score_partial.
  - intros link1 link2 i kw Hi Hm Hnone.
    destruct (priority_score_whole_bound kws link1 i kw Hi Hm)
      as (k & -> & Hk).
    destruct (priority_score_no_whole kws link2 Hnone) as [->|[k' ->]];
      [done|].
    simpl. apply Nat.ltb_lt. lia.
  - intros. by apply priority_score_infinity.
  - intros links i j x y Hij Hx Hy Hinf.
    pose proof (StronglySorted_lookup _ _ i j x y
                  (prioritize_links_ascending links kws) Hij Hx Hy) as Hle.
    unfold score_le in Hle. rewrite Hinf in Hle.
    by destruct (score_of kws y).
  - intros about network Ha Hn.
    assert (score_of [py "work"; py "about"] about = Rank 1) as Hsa
      by (unfold priority_score; rewrite Ha; reflexivity).
    assert (score_of [py "work"; py "about"] network = Rank 2) as Hsn
      by (unfold priority_score; rewrite Hn; reflexivity).
    unfold prioritize_links, sorted. cbn [foldr insert_by].
    by rewrite Hsa, Hsn.
Qed.

(** C8.  [prioritize_links] returns a permutation of its input, ascending
    by score, in which the links of each score, the infinite one too, stand
    in the order in which they were given; with no keyword the input is
    returned as it is, and with no link the result is empty. *)
Theorem prioritize_links_stable (links : list Link) (kws : list str) :
  prioritize_links urlparse links kws ≡ₚ links
  ∧ StronglySorted (λ x y, score_le (score_of kws x) (score_of kws y))
      (prioritize_links urlparse links kws)
  ∧ (∀ s, filter (λ l, score_of kws l = s) (prioritize_links urlparse links kws)
          = filter (λ l, score_of kws l = s) links)
  ∧ prioritize_links urlparse links [] = links
  ∧ prioritize_links urlparse [] kws = [].
Proof.
  split_and!.
  - apply prioritize_links_perm.
  - apply prioritize_links_ascending.
  - intros s. apply (sorted_stable score_lt (score_of kws)), score_lt_asym.
  - by apply sorted_id.
  - done.
Qed.

End PrioritizerFacts.

Example priority_score_network :
  priority_score simple_urlparse [py "work"; py "about"]
    {| url := py "https://example.com/network"; text := [] |}
  = Rank 2.
Proof. reflexivity. Qed.

Lemma priority_score_spec_witness :
  priority_score simple_urlparse [py "work"; py "about"] (link_to "/about")
  = Rank 1
  ∧ priority_score simple_urlparse [py "work"; py "about"]
      (link_to "/network") = Rank (0 + 2)
  ∧ score_lt
      (priority_score simple_urlparse [py "work"; py "about"]
         (link_to "/about"))
      (priority_score simple_urlparse [py "work"; py "about"]
         (link_to "/network")) = true
  ∧ priority_score simple_urlparse [py "work"; py "about"] (link_to "/home")
    = Infinity
  ∧ priority_score simple_urlparse [py "work"; py "about"] (link_to "/zzz")
    = Infinity
  ∧ prioritize_links simple_urlparse [link_to "/about"; link_to "/network"]
      [py "work"; py "about"]
    = [link_to "/about"; link_to "/network"].
Proof.
  destruct (priority_score_spec simple_urlparse [py "work"; py "about"])
    as (Hwhole & Hpartial & Hlt & Hinf & Hlast & Hex).
  split_and!.
  - apply (Hwhole (link_to "/about") 1%nat (py "about")); [reflexivity..|].
    intros [|j] kw' Hj Hk; [|clear -Hj; lia].
    simpl in Hk. simplify_eq. reflexivity.
  - apply (Hpartial (link_to "/network") 0%nat (py "work"));
      [|reflexivity..|].
    + intros [|[|j]] kw' Hk; simpl in Hk; simplify_eq; reflexivity.
    + intros j kw' Hj. clear -Hj. lia.
  - apply (Hlt (link_to "/about") (link_to "/network") 1%nat (py "about"));
      [reflexivity..|].
    intros [|[|j]] kw' Hk; simpl in Hk; simplify_eq; reflexivity.
  - apply (Hinf (link_to "/home")).
    intros [|[|j]] kw' Hk; simpl in Hk; simplify_eq; reflexivity.
  - apply (Hlast [link_to "/home"; link_to "/about"; link_to "/zzz"]
             1%nat 2%nat (link_to "/home") (link_to "/zzz"));
      [lia | reflexivity..].
  - apply (Hex (link_to "/about") (link_to "/network")); reflexivity.
Defined.

(** ** The crawl controller *)

Lemma slice_to_nonneg {A} (s : list A) (b : Z) :
  0 ≤ b → Py.slice_to s b = take (Z.to_nat b) s.
Proof.
  intros Hb. unfold Py.slice_to, Py.slice.
  assert (Py.clamp s 0 = 0) as ->.
  { unfold Py.clamp, Py.len. change (0 <? 0) with false. cbv iota. lia. }
  assert (Py.clamp s b = Z.min (Py.len s) b) as ->.
  { unfold Py.clamp, Py.len. destruct (Z.ltb_spec b 0); [lia|]. cbv iota. lia. }
  change (Z.to_nat 0) with 0%nat. rewrite drop_0, Z.sub_0_r. unfold Py.len.
  destruct (decide (b ≤ Z.of_nat (length s))).
  - by rewrite Z.min_r by lia.
  - rewrite Z.min_l, Nat2Z.id by lia.
    by rewrite !take_ge by lia.
Qed.

Lemma yielded_items_app (items : list Item) (requests : list Request) :
  yielded_items ((YieldItem <$> items) ++ (YieldRequest <$> requests)) = items.
Proof.
  unfold yielded_items. rewrite omap_app.
  assert (omap (λ o, match o with YieldItem i => Some i | _ => None end)
            (YieldRequest <$> requests) = []) as ->
    by (induction requests; simpl; done).
  rewrite app_nil_r. induction items; simpl; [done | by f_equal].
Qed.

Lemma yielded_requests_app (items : list Item) (requests : list Request) :
  yielded_requests ((YieldItem <$> items) ++ (YieldRequest <$> requests))
  = requests.
Proof.
  unfold yielded_requests. rewrite omap_app.
  assert (omap (λ o, match o with YieldRequest r => Some r | _ => None end)
            (YieldItem <$> items) = []) as ->
    by (induction items; simpl; done).
  simpl. induction requests; simpl; [done | by f_equal].
Qed.

Section ControllerFacts.

Variable urlparse : str → ParseResult.
Variable urlunparse : ParseResult → str.
Variable extract_links : list str → (str → str) → Response → list Link.

Local Abbreviation parse' := (parse urlparse urlunparse extract_links).
Local Abbreviation crawl' := (crawl urlparse urlunparse extract_links).
Local Abbreviation on_event' := (on_event urlparse urlunparse extract_links).

(** The links [parse] ranks: those of the current domain, as the link
    extractor gives them, in the order of [prioritize_links]. *)
Local Abbreviation ranked_links self response :=
  (prioritize_links urlparse
     (extract_links [domain urlparse (response_url response)]
        (remove_fragment urlparse urlunparse) response)
     (priority_url_keywords self)).

(** The counter of the current domain after [parse] has incremented it. *)
Local Abbreviation counter self response :=
  (default 0
     (pages_crawled_per_domain self !! domain urlparse (response_url response))
   + 1).

(** The request [parse] yields for the link at the rank [index]. *)
Local Abbreviation follow_up self response index link :=
  {| request_url := url link;
     priority := Py.len (ranked_links self response) - Z.of_nat index;
     request_meta :=
       {| meta_origin_domain := meta_origin_domain (response_meta response);
          meta_depth := None |} |}.

(** [parse] unfolded, with the projections of the updated spider
    reduced. *)
Ltac unfold_parse :=
  unfold parse; cbv zeta;
  cbn [max_pages_per_domain priority_url_keywords];
  destruct (_ <? _); [|destruct (bool_decide _)];
  cbn [fst snd start_urls pages_crawled_per_domain].

Lemma parse_start_urls (self : EmailSpider) (response : Response) :
  start_urls (parse' self response).1 = start_urls self.
Proof. unfold_parse; done. Qed.

Lemma parse_counter (self : EmailSpider) (response : Response) :
  pages_crawled_per_domain (parse' self response).1
  = <[domain urlparse (response_url response) := counter self response]>
      (pages_crawled_per_domain self).
Proof. unfold_parse; done. Qed.

Lemma parse_yielded_items (self : EmailSpider) (response : Response) :
  yielded_items (parse' self response).2
  = (λ email,
       {| email := email;
          origin_domain := meta_origin_domain (response_meta response) |})
    <$> elements
          (extract_emails (response_text response)
             (domain urlparse (response_url response))).
Proof.
  unfold_parse.
  - rewrite <- (app_nil_r (YieldItem <$> _)).
    apply (yielded_items_app _ []).
  - apply yielded_items_app.
  - rewrite <- (app_nil_r (YieldItem <$> _)).
    apply (yielded_items_app _ []).
Qed.

Lemma parse_yielded_requests (self : EmailSpider) (response : Response) :
  yielded_requests (parse' self response).2
  = if max_pages_per_domain self <? counter self response then []
    else if bool_decide (depth_of (response_meta response) = 0%nat)
    then imap (λ index link, follow_up self response index link)
           (Py.slice_to (ranked_links self response)
              (max_pages_per_domain self - counter self response))
    else [].
Proof.
  unfold_parse.
  - rewrite <- (app_nil_r (YieldItem <$> _)).
    apply (yielded_requests_app _ []).
  - apply yielded_requests_app.
  - rewrite <- (app_nil_r (YieldItem <$> _)).
    apply (yielded_requests_app _ []).
Qed.

(** C3.  After [parse] has incremented the counter of the current domain:
    if the counter exceeds [max_pages_per_domain], no request is yielded;
    if the depth of the response is not 0, no request is yielded;
    otherwise the requests yielded are those of the first
    [max_pages_per_domain - counter] ranked links of the current domain, in
    order (fewer if there are fewer links), and the request at the rank [i]
    has the priority [len(ranked) - i] and the origin domain of the
    response. *)
Theorem parse_follow_ups (self : EmailSpider) (response : Response) :
  pages_crawled_per_domain (parse' self response).1
    !! domain urlparse (response_url response)
  = Some (counter self response)
  ∧ (max_pages_per_domain self < counter self response →
     yielded_requests (parse' self response).2 = [])
  ∧ (depth_of (response_meta response) ≠ 0%nat →
     yielded_requests (parse' self response).2 = [])
  ∧ (counter self response ≤ max_pages_per_domain self →
     depth_of (response_meta response) = 0%nat →
     yielded_requests (parse' self response).2
     = imap (λ index link, follow_up self response index link)
         (take (Z.to_nat (max_pages_per_domain self - counter self response))
            (ranked_links self response))
     ∧ Z.of_nat (length (yielded_requests (parse' self response).2))
       ≤ max_pages_per_domain self - counter self response
     ∧ (request_url <$> yielded_requests (parse' self response).2)
         `prefix_of` (url <$> ranked_links self response)
     ∧ ∀ i r,
         yielded_requests (parse' self response).2 !! i = Some r →
         ∃ link,
           ranked_links self response !! i = Some link
           ∧ request_url r = url link
           ∧ priority r
             = Py.len (ranked_links self response) - Z.of_nat i
           ∧ meta_origin_domain (request_meta r)
             = meta_origin_domain (response_meta response)).
Proof.
  rewrite parse_counter, parse_yielded_requests. split_and!.
  - apply lookup_insert_eq.
  - intros H. by destruct (Z.ltb_spec (max_pages_per_domain self)
                             (counter self response)); [|lia].
  - intros H. destruct (_ <? _); [done|]. by case_bool_decide.
  - intros Hle Hdepth.
    destruct (Z.ltb_spec (max_pages_per_domain self) (counter self response));
      [lia|].
    rewrite bool_decide_eq_true_2 by done.
    rewrite slice_to_nonneg by lia.
    set (n := Z.to_nat (max_pages_per_domain self - counter self response)).
    set (ranked := ranked_links self response).
    split_and!.
    + done.
    + rewrite length_imap, length_take. lia.
    + exists (url <$> drop n ranked).
      rewrite <- (take_drop n ranked) at 1. rewrite fmap_app. f_equal.
      apply list_eq. intros i.
      rewrite !list_lookup_fmap, list_lookup_imap.
      by destruct (take n ranked !! i).
    + intros i r Hr. rewrite list_lookup_imap in Hr.
      destruct (take n ranked !! i) as [link|] eqn:E; [|done].
      simpl in Hr. simplify_eq. exists link.
      apply lookup_take_Some in E as [E _]. done.
Qed.

(** The invariant of a run holds at the start. *)
Lemma start_run_invariant (self : EmailSpider) :
  crawl_invariant urlparse self (start_run urlparse self).
Proof.
  unfold crawl_invariant, start_run, start_requests. simpl. split_and!.
  - done.
  - done.
  - intros r seed (r' & Heq & (u & -> & Hu)%list_elem_of_fmap)%list_elem_of_fmap.
    simplify_eq. simpl. split_and!; [done | done |].
    unfold hop_depth, depth_of. simpl. lia.
  - intros item seed H. by apply not_elem_of_nil in H.
Qed.

(** Every event keeps it. *)
Lemma on_event_invariant (self : EmailSpider) (run : Run) (e : event) :
  crawl_invariant urlparse self run →
  crawl_invariant urlparse self (on_event' run e).
Proof.
  intros (Hurls & Hpend & Hprod & Hres). destruct e as [pick final_url body|pick].
  - unfold on_event.
    destruct (pending run !! pick) as [[request seed]|] eqn:Hpick;
      [|done].
    set (response := {| response_url := final_url; response_text := body;
                        response_meta := request_meta request |}).
    pose proof (parse_start_urls (spider run) response) as H1.
    pose proof (parse_yielded_items (spider run) response) as H2.
    pose proof (parse_yielded_requests (spider run) response) as H3.
    destruct (parse' (spider run) response) as [self' outs].
    cbn [fst snd] in H1, H2, H3.
    apply list_elem_of_lookup_2 in Hpick.
    destruct (Hprod request seed (Hpend _ _ Hpick)) as (Hseed & Horigin & Hdepth).
    unfold crawl_invariant. cbn [spider pending produced results].
    split_and!.
    + congruence.
    + intros r s [H|H]%elem_of_app; apply elem_of_app; [left|by right].
      apply Hpend. by eapply list_elem_of_delete_inv.
    + intros r s [H|H]%elem_of_app; [by apply Hprod|].
      apply list_elem_of_fmap in H as (r' & Heq & Hr'). simplify_eq.
      rewrite H3 in Hr'.
      destruct (_ <? _); [by apply not_elem_of_nil in Hr'|].
      case_bool_decide as Hd; [|by apply not_elem_of_nil in Hr'].
      apply list_elem_of_lookup in Hr' as [i Hi].
      rewrite list_lookup_imap in Hi.
      destruct (Py.slice_to _ _ !! i); [|done]. simpl in Hi. simplify_eq.
      split_and!; [done | done |].
      unfold hop_depth, depth_of in *. simpl in *. lia.
    + intros item s [H|H]%elem_of_app; [by apply Hres|].
      apply list_elem_of_fmap in H as (item' & Heq & Hi). simplify_eq.
      rewrite H2 in Hi.
      apply list_elem_of_fmap in Hi as (email & -> & _). done.
  - unfold on_event, crawl_invariant.
    cbn [spider pending produced results]. split_and!; [done | | done | done].
    intros r s H. apply Hpend. by eapply list_elem_of_delete_inv.
Qed.

Lemma crawl_invariant_holds (self : EmailSpider) (events : list event) :
  crawl_invariant urlparse self (crawl' self events).
Proof.
  unfold crawl.
  generalize (start_run_invariant self).
  generalize (start_run urlparse self). 
  induction events as [|e events IH]; intros run Hrun; simpl; [done|].
  apply IH. by apply on_event_invariant.
Qed.

(** C4.  The origin domain is set once, as the domain of the seed URL,
    when the seed request is made; [parse] copies the origin domain of the
    response into every item and every request it yields, whatever the URL
    of the page; so, at every moment of a crawl run, every request made
    and every item emitted carries the domain of the seed URL its chain of
    requests started from, and not that of the page fetched. *)
Theorem origin_domain_provenance (self : EmailSpider) (events : list event) :
  (∀ r, r ∈ start_requests urlparse self →
        request_url r ∈ start_urls self
        ∧ meta_origin_domain (request_meta r)
          = domain urlparse (request_url r))
  ∧ (∀ spider response,
       (∀ item, item ∈ yielded_items (parse' spider response).2 →
                origin_domain item
                = meta_origin_domain (response_meta response))
       ∧ (∀ r, r ∈ yielded_requests (parse' spider response).2 →
               meta_origin_domain (request_meta r)
               = meta_origin_domain (response_meta response)))
  ∧ (∀ r seed, (r, seed) ∈ produced (crawl' self events) →
               seed ∈ start_urls self
               ∧ meta_origin_domain (request_meta r) = domain urlparse seed)
  ∧ (∀ item seed, (item, seed) ∈ results (crawl' self events) →
                  seed ∈ start_urls self
                  ∧ origin_domain item = domain urlparse seed).
Proof.
  destruct (crawl_invariant_holds self events) as (_ & _ & Hprod & Hres).
  split_and!.
  - intros r (u & -> & Hu)%list_elem_of_fmap. done.
  - intros sp response. split.
    + intros item. rewrite parse_yielded_items.
      by intros (e & -> & _)%list_elem_of_fmap.
    + intros r. rewrite parse_yielded_requests.
      destruct (_ <? _); [by intros ?%not_elem_of_nil|].
      case_bool_decide; [|by intros ?%not_elem_of_nil].
      intros [i Hi]%list_elem_of_lookup. rewrite list_lookup_imap in Hi.
      destruct (Py.slice_to _ _ !! i); [|done]. simpl in Hi. by simplify_eq.
  - intros r seed H. by destruct (Hprod r seed H) as (? & ? & _).
  - done.
Qed.

(** C5.  The requests of the start are at depth 0; a response whose depth
    is not 0 yields no request; and at every moment of a crawl run no
    request has been made at a depth greater than 1. *)
Theorem hop_depth_at_most_one (self : EmailSpider) (events : list event) :
  (∀ r, r ∈ start_requests urlparse self → hop_depth r = 0%nat)
  ∧ (∀ spider response,
       depth_of (response_meta response) ≠ 0%nat →
       yielded_requests (parse' spider response).2 = [])
  ∧ (∀ r seed, (r, seed) ∈ produced (crawl' self events) →
               (hop_depth r ≤ 1)%nat).
Proof.
  split_and!.
  - by intros r (u & -> & Hu)%list_elem_of_fmap.
  - intros sp response Hd. rewrite parse_yielded_requests.
    destruct (_ <? _); [done|]. by case_bool_decide.
  - intros r seed H.
    destruct (crawl_invariant_holds self events) as (_ & _ & Hprod & _).
    by destruct (Hprod r seed H) as (_ & _ & ?).
Qed.

End ControllerFacts.

Lemma parse_follow_ups_witness :
  Z.of_nat
    (length
       (yielded_requests
          (parse simple_urlparse simple_urlunparse simple_extract_links
             demo_spider demo_response).2))
  ≤ max_pages_per_domain demo_spider
    - (default 0
         (pages_crawled_per_domain demo_spider
            !! domain simple_urlparse (response_url demo_response))
       + 1).
Proof.
  destruct (parse_follow_ups simple_urlparse simple_urlunparse
              simple_extract_links demo_spider demo_response)
    as (_ & _ & _ & H).
  destruct H as (_ & Hlen & _); [vm_compute; discriminate | reflexivity |].
  exact Hlen.
Defined.

Lemma origin_domain_provenance_witness :
  py "https://example.com" ∈ start_urls demo_spider
  ∧ origin_domain
      {| email := py "bob@example.org"; origin_domain := py "example.com" |}
    = domain simple_urlparse (py "https://example.com").
Proof.
  destruct (origin_domain_provenance simple_urlparse simple_urlunparse
              simple_extract_links demo_spider demo_events)
    as (_ & _ & _ & H).
  apply (H {| email := py "bob@example.org";
              origin_domain := py "example.com" |}
           (py "https://example.com")).
  vm_compute. apply list_elem_of_here.
Defined.

Lemma hop_depth_at_most_one_witness :
  (hop_depth
     {| request_url := py "https://www.example.org/contact";
        priority := 3;
        request_meta :=
          {| meta_origin_domain := py "example.com";
             meta_depth := Some 1%nat |} |}
   ≤ 1)%nat.
Proof.
  destruct (hop_depth_at_most_one simple_urlparse simple_urlunparse
              simple_extract_links demo_spider demo_events)
    as (_ & _ & H).
  apply (H _ (py "https://example.com")).
  vm_compute. apply list_elem_of_further, list_elem_of_here.
Defined.

(** ** ensure_urls_valid *)

Lemma startswith_any_two (s p q : str) :
  Py.startswith_any s [p; q] = Py.startswith s p || Py.startswith s q.
Proof. unfold Py.startswith_any. cbn [existsb]. by rewrite orb_false_r. Qed.

Lemma ensure_urls_valid_map (urls : list str) :
  ensure_urls_valid urls = normalize_seed_spec <$> urls.
Proof.
  unfold ensure_urls_valid.
  enough (∀ acc,
            foldl
              (λ valid_urls url,
                 valid_urls
                 ++ [if negb (Py.startswith_any url
                                [py "http://"; py "https://"])
                     then py "https://" ++ url else url])
              acc urls
            = acc ++ (normalize_seed_spec <$> urls)) as H by apply (H []).
  induction urls as [|url urls IH]; intros acc.
  - cbn [foldl fmap list_fmap]. by rewrite app_nil_r.
  - cbn [foldl]. rewrite IH, <- app_assoc, fmap_cons. do 2 f_equal.
    rewrite startswith_any_two. unfold normalize_seed_spec.
    by destruct (Py.startswith url (py "http://")
                 || Py.startswith url (py "https://")).
Qed.

(** C9.  Seed normalization gives, for every list of URLs, one URL for each
    of them, in order (it is a total function: no input is rejected, none
    raises): the URL itself when it begins with [http://] or [https://],
    and the URL with [https://] before it otherwise. *)
Theorem ensure_urls_valid_spec (urls : list str) :
  ensure_urls_valid urls = normalize_seed_spec <$> urls
  ∧ length (ensure_urls_valid urls) = length urls
  ∧ (∀ i url,
       urls !! i = Some url →
       Py.startswith url (py "http://") || Py.startswith url (py "https://")
       = true →
       ensure_urls_valid urls !! i = Some url)
  ∧ (∀ i url,
       urls !! i = Some url →
       Py.startswith url (py "http://") || Py.startswith url (py "https://")
       = false →
       ensure_urls_valid urls !! i = Some (py "https://" ++ url)).
Proof.
  rewrite ensure_urls_valid_map. split_and!.
  - done.
  - by rewrite length_fmap.
  - intros i url Hi Hs. rewrite list_lookup_fmap, Hi. simpl.
    unfold normalize_seed_spec. by rewrite Hs.
  - intros i url Hi Hs. rewrite list_lookup_fmap, Hi. simpl.
    unfold normalize_seed_spec. by rewrite Hs.
Qed.

Lemma ensure_urls_valid_spec_witness :
  ensure_urls_valid [py "example.com"; py "http://www.b.org/x"] !! 0%nat
  = Some (py "https://" ++ py "example.com")
  ∧ ensure_urls_valid [py "example.com"; py "http://www.b.org/x"] !! 1%nat
    = Some (py "http://www.b.org/x").
Proof.
  destruct (ensure_urls_valid_spec [py "example.com"; py "http://www.b.org/x"])
    as (_ & _ & Hkeep & Hadd).
  split.
  - apply (Hadd 0%nat (py "example.com")); reflexivity.
  - apply (Hkeep 1%nat (py "http://www.b.org/x")); reflexivity.
Defined.

(** The spider starts from the normalized seeds, a list or a
    comma-separated string. *)
Example init_start_urls :
  start_urls (init (inl (py "example.com,http://www.b.org/x")))
  = [py "https://example.com"; py "http://www.b.org/x"].
Proof. reflexivity. Qed.

(** * Further properties of the code *)

(** ** extract_emails: what is returned *)

Lemma occurs_at_app_r (u target s : str) (i : nat) :
  occurs_at (u ++ target) s i → occurs_at target s (i + length u).
Proof.
  intros [Hb Ht]. rewrite length_app in Hb, Ht. split; [lia|].
  rewrite <- take_take_drop in Ht. apply (f_equal (drop (length u))) in Ht.
  rewrite drop_app_length' in Ht by (rewrite length_take, length_drop; lia).
  rewrite drop_app_length in Ht. by rewrite drop_drop in Ht.
Qed.

Lemma occurs_at_app_l (u target s : str) (i : nat) :
  occurs_at (u ++ target) s i → take (length u) (drop i s) = u.
Proof.
  intros [Hb Ht]. rewrite length_app in Hb, Ht.
  apply (f_equal (take (length u))) in Ht.
  rewrite take_take, take_app_length in Ht.
  by replace (length u `min` (length u + length target))%nat
    with (length u) in Ht by lia.
Qed.

(** X1.  Every string [extract_emails(text, domain)] returns is a local
    part followed by the target the code builds
    (["@" + domain.replace('www.', '')]); the local part is not empty and
    made of letters, digits, [_], [.] and [-]; the string stands in the
    text at some index, the character before it (if any) is not an allowed
    character, and neither is the character after it (if any). *)
Theorem extract_emails_form (text domain e : str) :
  e ∈ extract_emails text domain →
  ∃ (username : str) (i : nat),
    e = username ++ py "@" ++ Py.replace domain (py "www.") []
    ∧ username ≠ []
    ∧ Forall (λ c, Py.is_alnum c || bool_decide (c ∈ py "_.-") = true)
        username
    ∧ take (length e) (drop i text) = e
    ∧ (i + length e ≤ length text)%nat
    ∧ (i = 0%nat ∨ in_allowed (text !! (i - 1)%nat) = false)
    ∧ ((i + length e)%nat = length text
       ∨ in_allowed (text !! (i + length e)%nat) = false).
Proof.
  intros He. destruct (extract_emails_sound text domain e He)
    as (i & username & -> & Hne & Hall & [Hb Ht] & Hleft & Hright).
  exists username, i. split_and!; [done | done | | done | done | |].
  - eapply Forall_impl; [exact Hall|]. intros c Hc.
    rewrite <- allowed_chars_spec. by apply bool_decide_eq_true.
  - destruct Hleft as [H|[H|H]].
    + left. lia.
    + unfold Py.len in H. lia.
    + destruct i; [by left|]. right.
      by replace (Z.to_nat (Z.of_nat (S i) - 1)) with (S i - 1)%nat in H
        by lia.
  - destruct Hright as [H|[H|H]]; unfold Py.len in *.
    + lia.
    + left. lia.
    + right. by rewrite <- Nat2Z.inj_add, Nat2Z.id in H.
Qed.

Lemma extract_emails_form_witness :
  ∃ (username : str) (i : nat),
    py "a@x.com" = username ++ py "@" ++ Py.replace (py "x.com") (py "www.") []
    ∧ username ≠ []
    ∧ Forall (λ c, Py.is_alnum c || bool_decide (c ∈ py "_.-") = true)
        username
    ∧ take (length (py "a@x.com")) (drop i (py "a@x.com b@x.com"))
      = py "a@x.com"
    ∧ (i + length (py "a@x.com") ≤ length (py "a@x.com b@x.com"))%nat
    ∧ (i = 0%nat ∨ in_allowed (py "a@x.com b@x.com" !! (i - 1)%nat) = false)
    ∧ ((i + length (py "a@x.com"))%nat = length (py "a@x.com b@x.com")
       ∨ in_allowed (py "a@x.com b@x.com" !! (i + length (py "a@x.com"))%nat)
         = false).
Proof.
  apply (extract_emails_form (py "a@x.com b@x.com") (py "x.com")
           (py "a@x.com")).
  vm_compute. reflexivity.
Defined.

(** X2.  When every occurrence of the target in the text is followed by an
    allowed character (the domain goes on, as [example.com] in
    [example.com.au]), and so too when the target does not occur at all,
    [extract_emails] returns the empty set. *)
Theorem extract_emails_no_exact_match (text domain : str) :
  (∀ i, occurs_at (target_of domain) text i →
        in_allowed (text !! (i + length (target_of domain))%nat) = true) →
  extract_emails text domain = ∅.
Proof.
  intros Hall. apply elem_of_equiv_empty_L. intros e He.
  destruct (extract_emails_sound text domain e He)
    as (i & username & -> & _ & _ & Hocc & _ & Hright).
  pose proof (occurs_at_app_r _ _ _ _ Hocc) as Ht.
  specialize (Hall _ Ht). destruct Ht as [Hb _].
  unfold outside_allowed, Py.len in Hright. rewrite length_app in Hright.
  destruct Hright as [H|[H|H]].
  - lia.
  - rewrite lookup_ge_None_2 in Hall by lia. done.
  - rewrite <- Nat2Z.inj_add, Nat2Z.id in H.
    rewrite Nat.add_assoc in H. congruence.
Qed.

Lemma extract_emails_no_exact_match_witness :
  extract_emails (py "x@example.com.au y@example.com-z") (py "example.com")
  = ∅.
Proof.
  apply extract_emails_no_exact_match.
  intros i [Hb Ht].
  assert (i < 21)%nat as Hi by (simpl in Hb; lia).
  do 21 (destruct i as [|i]; [try discriminate Ht; reflexivity|]).
  lia.
Defined.

(** ** extract_emails: what is found *)

Lemma replace_aux_elem_of (old s : str) (skip : nat) (c : ascii) :
  c ∈ Py.replace_aux old [] s skip → c ∈ s.
Proof.
  revert skip. induction s as [|d s IH]; intros skip; simpl; [done|].
  destruct skip as [|k].
  - destruct (Py.startswith (d :: s) old).
    + simpl. intros H%IH. by right.
    + intros [->|H%IH]%elem_of_cons; [by left | by right].
  - intros H%IH. by right.
Qed.

(** Two occurrences of a target whose domain part has no ["@"] do not
    overlap. *)
Lemma target_occurrences_apart (domain text : str) (r j : nat) :
  "@"%char ∉ domain →
  occurs_at (target_of domain) text r →
  occurs_at (target_of domain) text j →
  (r < j)%nat → (r + length (target_of domain) ≤ j)%nat.
Proof.
  intros Hat Hr Hj Hlt.
  destruct (decide (r + length (target_of domain) ≤ j)%nat) as [|Hov]; [done|].
  exfalso.
  pose proof (occurs_at_lookup _ _ r (j - r) Hr ltac:(lia)) as H1.
  pose proof (occurs_at_lookup _ _ j 0 Hj
                ltac:(pose proof (target_of_length domain);
                      unfold Py.len in *; lia)) as H2.
  replace (r + (j - r))%nat with j in H1 by lia.
  rewrite Nat.add_0_r in H2. rewrite H2 in H1.
  unfold target_of in H1. simpl in H1.
  destruct (j - r)%nat as [|k] eqn:E; [lia|]. simpl in H1.
  apply Hat. eapply replace_aux_elem_of.
  eapply list_elem_of_lookup_2. symmetry. exact H1.
Qed.

(** The iteration that finds the target at the end of an address adds the
    address. *)
Lemma scan_body_adds (text target : str) (pos : Z) (emails : gset str)
    (r i : nat) (username : str) :
  Py.find text target pos = Z.of_nat r →
  username ≠ [] →
  Forall (λ c, c ∈ allowed_chars) username →
  occurs_at (username ++ target) text i →
  outside_allowed text (Z.of_nat i - 1) →
  outside_allowed text (Z.of_nat i + Py.len (username ++ target)) →
  (i + length username)%nat = r →
  ∃ emails',
    scan_body text target (pos, emails)
    = inl (Z.of_nat r + Py.len target, emails')
    ∧ username ++ target ∈ emails'.
Proof.
  intros Hfind Hne Hall Hocc Hleft Hright Hr. unfold scan_body.
  rewrite Hfind.
  destruct (Z.eqb_spec (Z.of_nat r) (-1)) as [?|_]; [lia|].
  pose proof Hocc as [Hb Ht]. rewrite length_app in Hb.
  assert ((Z.of_nat r + Py.len target <? Py.len text)
          && in_allowed (Py.index text (Z.of_nat r + Py.len target)) = false)
    as ->.
  { unfold outside_allowed, Py.len in *. rewrite length_app in Hright.
    destruct Hright as [H|[H|H]]; [lia | |].
    - apply andb_false_iff. left. apply Z.ltb_ge. lia.
    - apply andb_false_iff. right. rewrite index_nonneg by lia.
      rewrite <- H. do 2 f_equal. lia. }
  set (start := walk_back text (Z.to_nat (Z.of_nat r)) (Z.of_nat r - 1)).
  destruct (walk_back_spec text (Z.to_nat (Z.of_nat r)) (Z.of_nat r - 1))
    as (Hs1 & Hs2 & Hs3); [lia | lia |].
  fold start in Hs1, Hs2, Hs3.
  assert (∀ k, (i ≤ k < r)%nat → in_allowed (text !! k) = true) as Hin.
  { intros k Hk.
    pose proof (occurs_at_lookup _ _ i (k - i) Hocc
                  ltac:(rewrite length_app; lia)) as Hl.
    replace (i + (k - i))%nat with k in Hl by lia.
    rewrite lookup_app_l in Hl by lia.
    destruct (username !! (k - i)%nat) as [c|] eqn:Ec;
      [|apply lookup_ge_None in Ec; lia].
    rewrite Hl. simpl. apply bool_decide_eq_true.
    rewrite Forall_forall in Hall. apply Hall.
    by eapply list_elem_of_lookup_2. }
  assert (start = Z.of_nat i - 1) as Hstart.
  { destruct (Z.lt_trichotomy start (Z.of_nat i - 1)) as [Hlt|[?|Hgt]];
      [|done|].
    - specialize (Hs2 (Z.of_nat i - 1) ltac:(lia)).
      unfold outside_allowed, Py.len in Hleft.
      destruct Hleft as [H|[H|H]]; [lia | lia | congruence].
    - destruct Hs3 as [H|H]; [lia|].
      rewrite (Hin (Z.to_nat start)) in H by lia. done. }
  rewrite Hstart, slice_inside by (unfold Py.len; lia).
  replace (Z.of_nat i - 1 + 1) with (Z.of_nat i) by lia.
  rewrite Nat2Z.id.
  replace (Z.to_nat (Z.of_nat r - Z.of_nat i)) with (length username) by lia.
  rewrite (occurs_at_app_l _ _ _ _ Hocc).
  rewrite bool_decide_eq_false_2 by done.
  eexists. split; [done|]. apply elem_of_union. left.
  by apply elem_of_singleton.
Qed.

(** For a domain without ["@"], every address that stands in the text is in
    the result. *)
Lemma extract_emails_finds (text domain e : str) (i : nat) :
  "@"%char ∉ domain →
  extracted_at text (target_of domain) e i →
  e ∈ extract_emails text domain.
Proof.
  intros Hat Hex.
  destruct (extract_emails_run_total text domain) as (n & Hrun & _).
  revert e i Hex. unfold extract_emails_run in Hrun.
  eapply (while_true_invariant (scan_body text (target_of domain))
            (λ st, 0 ≤ st.1
                   ∧ ∀ e i username,
                       e = username ++ target_of domain →
                       extracted_at text (target_of domain) e i →
                       Z.of_nat (i + length username) < st.1 →
                       e ∈ st.2)
            (λ res, ∀ e i, extracted_at text (target_of domain) e i →
                           e ∈ res));
    [ | | | exact Hrun].
  - intros [pos ems] [pos' ems'] [Hpos Hinv] Hbody.
    cbn [fst snd] in Hpos, Hinv |- *.
    pose proof (scan_body_outcome text (target_of domain) pos ems Hpos) as H.
    rewrite Hbody in H. destruct H as (r & Hfind & Hr & Hocc & -> & Hems).
    split; [unfold Py.len; lia|].
    intros e i username -> Hex Hlt.
    pose proof Hex as (u & Hu & Hne & Hall & Hoce & Hleft & Hright).
    apply app_inv_tail in Hu. subst u.
    pose proof (occurs_at_app_r _ _ _ _ Hoce) as Hj.
    set (j := (i + length username)%nat) in *.
    destruct (decide (Z.of_nat j < pos)) as [Hold|Hnew].
    { assert (username ++ target_of domain ∈ ems) as Hin
        by (by eapply (Hinv _ i username)).
      destruct Hems as [->|(e0 & i0 & -> & _)]; [done|].
      apply elem_of_union. by right. }
    assert (j = r) as Hjr.
    { destruct (find_complete text (target_of domain) pos j)
        as (r' & Hr' & _ & Hle & _); [lia | lia | done |].
      rewrite Hfind in Hr'. apply Nat2Z.inj in Hr'. subst r'.
      destruct (decide (j = r)) as [|Hne']; [done|].
      pose proof (target_occurrences_apart domain text r j Hat Hocc Hj
                    ltac:(lia)).
      unfold Py.len in Hlt. lia. }
    destruct (scan_body_adds text (target_of domain) pos ems r i username)
      as (ems'' & Hbody' & Hin); try done.
    rewrite Hbody in Hbody'. by simplify_eq.
  - intros [pos ems] res [Hpos Hinv] Hbody.
    cbn [fst snd] in Hpos, Hinv |- *.
    pose proof (scan_body_outcome text (target_of domain) pos ems Hpos) as H.
    rewrite Hbody in H. destruct H as [-> Hfind].
    intros e i Hex.
    pose proof Hex as (username & -> & Hne & Hall & Hoce & Hleft & Hright).
    pose proof (occurs_at_app_r _ _ _ _ Hoce) as Hj.
    destruct (decide (Z.of_nat (i + length username) < pos)) as [Hold|Hnew].
    + by eapply (Hinv _ i username).
    + destruct (find_complete text (target_of domain) pos
                  (i + length username))
        as (r' & Hr' & _); [lia | lia | done |].
      rewrite Hfind in Hr'. lia.
  - cbn [fst snd]. split; [lia|]. intros. lia.
Qed.

(** X3.  For a domain without ["@"], the result of [extract_emails] is
    exactly the set of the addresses of the target that stand in the text:
    a string is returned if and only if it is a non-empty run of allowed
    characters followed by the target and stands somewhere in the text
    with no allowed character just before it and none just after it.  No
    such address is missed. *)
Theorem extract_emails_complete (text domain e : str) :
  "@"%char ∉ domain →
  e ∈ extract_emails text domain
  ↔ ∃ i, extracted_at text (target_of domain) e i.
Proof.
  intros Hat. split.
  - apply extract_emails_sound.
  - intros [i Hi]. by eapply extract_emails_finds.
Qed.

Lemma extract_emails_complete_witness :
  py "b@x.com" ∈ extract_emails (py "a@x.com b@x.com") (py "x.com").
Proof.
  apply extract_emails_complete.
  - apply (bool_decide_eq_false_1 _). vm_compute. reflexivity.
  - exists 8%nat, (py "b"). split_and!.
    + reflexivity.
    + discriminate.
    + repeat constructor.
    + split; [simpl; lia | reflexivity].
    + right; right. reflexivity.
    + right; left. reflexivity.
Defined.

(** The hypothesis on the domain is needed: with a host name that holds an
    ["@"] (user information in the URL) two occurrences of the target can
    overlap, and the scan goes past the second one. *)
Example extract_emails_overlap :
  extracted_at (py "x@a@a@a") (target_of (py "a@a")) (py "a@a@a") 2
  ∧ py "a@a@a" ∉ extract_emails (py "x@a@a@a") (py "a@a").
Proof.
  split.
  - exists (py "a"). split_and!; [reflexivity | discriminate | repeat constructor
      | split; [simpl; lia | reflexivity] | right; right; reflexivity
      | right; left; reflexivity].
  - apply (bool_decide_eq_false_1 _). vm_compute. reflexivity.
Qed.

(** ** ensure_urls_valid and the start of the spider *)

Lemma has_scheme_https (url : str) : has_scheme (py "https://" ++ url) = true.
Proof.
  unfold has_scheme. apply orb_true_iff. right.
  apply startswith_prefix. by exists url.
Qed.

Lemma normalize_seed_has_scheme (url : str) :
  has_scheme (normalize_seed_spec url) = true.
Proof.
  unfold normalize_seed_spec. fold (has_scheme url).
  destruct (has_scheme url) eqn:E; [done | apply has_scheme_https].
Qed.

(** X4.  Every URL [ensure_urls_valid] returns begins with [http://] or
    [https://], whatever the input. *)
Theorem ensure_urls_valid_scheme (urls : list str) :
  Forall (λ url, has_scheme url = true) (ensure_urls_valid urls).
Proof.
  rewrite ensure_urls_valid_map. apply Forall_fmap, Forall_true.
  intros url. apply normalize_seed_has_scheme.
Qed.

(** X5.  [ensure_urls_valid] is idempotent: URLs that went through it are
    returned unchanged. *)
Theorem ensure_urls_valid_idempotent (urls : list str) :
  ensure_urls_valid (ensure_urls_valid urls) = ensure_urls_valid urls.
Proof.
  rewrite !ensure_urls_valid_map, <- list_fmap_compose.
  apply list_fmap_ext. intros _ url _. simpl.
  pose proof (normalize_seed_has_scheme url) as H.
  unfold normalize_seed_spec at 1. fold (has_scheme (normalize_seed_spec url)).
  by rewrite H.
Qed.

Lemma split_length (sep : ascii) (s : str) :
  length (Py.split sep s) = S (count_char sep s).
Proof.
  unfold count_char. induction s as [|c s IH]; [done|].
  cbn [Py.split]. rewrite filter_cons.
  case_bool_decide; case_decide; try done.
  - simpl. by rewrite IH.
  - destruct (Py.split sep s) as [|h t]; [done|]. simpl in *. lia.
Qed.

Lemma split_no_sep (sep : ascii) (s : str) :
  Forall (λ part, sep ∉ part) (Py.split sep s).
Proof.
  induction s as [|c s IH]; cbn [Py.split].
  - repeat constructor. by intros ?%not_elem_of_nil.
  - case_bool_decide.
    + constructor; [by intros ?%not_elem_of_nil | done].
    + destruct (Py.split sep s) as [|h t].
      * repeat constructor. by intros [?|?%not_elem_of_nil]%elem_of_cons.
      * inversion IH; subst. constructor; [|done].
        intros [?|?]%elem_of_cons; done.
Qed.

(** X6.  A spider made from a comma-separated string has one start URL for
    each comma of the string and one more: never none, and for the empty
    string the one start URL [https://].  Each start URL begins with
    [http://] or [https://] and holds no comma, and the spider starts with no page counted
    and no email found. *)
Theorem init_from_string (s : str) :
  length (start_urls (init (inl s))) = S (count_char ","%char s)
  ∧ Forall (λ url, has_scheme url = true) (start_urls (init (inl s)))
  ∧ Forall (λ url, ","%char ∉ url) (start_urls (init (inl s)))
  ∧ start_urls (init (inl [])) = [py "https://"].
Proof.
  cbn [init start_urls]. split_and!.
  - by rewrite ensure_urls_valid_map, length_fmap, split_length.
  - rewrite ensure_urls_valid_map. apply Forall_fmap, Forall_true.
    intros url. apply normalize_seed_has_scheme.
  - rewrite ensure_urls_valid_map. apply Forall_fmap.
    eapply Forall_impl; [apply (split_no_sep ","%char)|].
    intros part Hpart. simpl. unfold normalize_seed_spec.
    destruct (_ || _); [done|].
    intros [H|H]%elem_of_app; [|done].
    revert H. apply (bool_decide_eq_false_1 _). reflexivity.
  - reflexivity.
Qed.

(** ** priority_score and prioritize_links: further properties *)

Lemma lower_char_idempotent (c : ascii) :
  Py.lower_char (Py.lower_char c) = Py.lower_char c.
Proof. destruct c as [[] [] [] [] [] [] [] []]; reflexivity. Qed.

Lemma lower_idempotent (s : str) : Py.lower (Py.lower s) = Py.lower s.
Proof.
  unfold Py.lower. rewrite List.map_map. apply List.map_ext.
  apply lower_char_idempotent.
Qed.

Lemma for_enumerate_fmap {A B R} (f : A → B) (body : nat → B → option R)
    (xs : list A) (start : nat) :
  Py.for_enumerate (λ index x, body index (f x)) xs start
  = Py.for_enumerate body (f <$> xs) start.
Proof.
  revert start. induction xs as [|x xs IH]; intros start; simpl; [done|].
  by rewrite IH.
Qed.

Lemma contains_empty (s : str) : Py.contains [] s = true.
Proof.
  unfold Py.contains, Py.find, Py.len.
  destruct (Z.ltb_spec (Z.of_nat (length s)) 0); [lia|].
  simpl. by destruct s.
Qed.

(** A list that is ascending already is left as it is. *)
Lemma sorted_ascending {A K} (lt : K → K → bool) (key : A → K) (l : list A) :
  StronglySorted (key_le lt key) l → sorted lt key l = l.
Proof.
  induction 1 as [|x l Hs IH Hx]; simpl; [done|].
  rewrite IH. destruct Hs as [|y l' Hs Hy]; simpl; [done|].
  apply Forall_cons_1 in Hx as [Hxy _]. unfold key_le in Hxy.
  by rewrite Hxy.
Qed.

Lemma sorted_ext {A K} (lt : K → K → bool) (key key' : A → K) (l : list A) :
  (∀ x, key x = key' x) → sorted lt key l = sorted lt key' l.
Proof.
  intros Hk. induction l as [|x l IH]; simpl; [done|]. rewrite IH.
  generalize (sorted lt key' l). intros m.
  induction m as [|y m IHm]; simpl; [done|].
  by rewrite !Hk, IHm.
Qed.

Section PrioritizerMore.

Variable urlparse : str → ParseResult.

Local Abbreviation path_of link := (Py.lower (path (urlparse (url link)))).
Local Abbreviation score_of kws := (priority_score urlparse kws).
Local Abbreviation ranked links kws := (prioritize_links urlparse links kws).

(** X7.  The score does not depend on the case of the keywords: keyword
    lists that agree once lower-cased give every link the same score, and
    so the same ranking; and it does not depend on the case of the path. *)
Theorem priority_score_case_insensitive (kws kws' : list str)
    (links : list Link) (link link' : Link) :
  (Py.lower <$> kws = Py.lower <$> kws' →
   score_of kws link = score_of kws' link
   ∧ ranked links kws = ranked links kws')
  ∧ score_of (Py.lower <$> kws) link = score_of kws link
  ∧ (path_of link = path_of link' →
     score_of kws link = score_of kws link').
Proof.
  assert (∀ k k', Py.lower <$> k = Py.lower <$> k' →
                  ∀ l, score_of k l = score_of k' l) as Heq.
  { intros k k' Hk l. unfold priority_score, whole_word_match, Re.escape.
    assert (length k = length k') as ->
      by (apply (f_equal length) in Hk; by rewrite !length_fmap in Hk).
    rewrite (for_enumerate_fmap Py.lower
               (λ index kw,
                  if Re.search [Re.Boundary; Re.Literal kw; Re.Boundary]
                       (path_of l)
                  then Some (Rank index) else None) k).
    rewrite (for_enumerate_fmap Py.lower
               (λ index kw,
                  if Py.contains kw (path_of l)
                  then Some (Rank (index + length k')) else None) k).
    rewrite (for_enumerate_fmap Py.lower
               (λ index kw,
                  if Re.search [Re.Boundary; Re.Literal kw; Re.Boundary]
                       (path_of l)
                  then Some (Rank index) else None) k').
    rewrite (for_enumerate_fmap Py.lower
               (λ index kw,
                  if Py.contains kw (path_of l)
                  then Some (Rank (index + length k')) else None) k').
    by rewrite Hk. }
  split_and!.
  - intros Hk. split; [by apply Heq|].
    unfold prioritize_links. apply sorted_ext. by apply Heq.
  - apply Heq. rewrite <- list_fmap_compose. apply list_fmap_ext.
    intros _ kw _. apply lower_idempotent.
  - intros Hp. unfold priority_score. by rewrite Hp.
Qed.


Lemma priority_score_cases (kws : list str) (link : Link) :
  (∃ k kw, score_of kws link = Rank k
           ∧ kws !! k = Some kw
           ∧ whole_word_match kw (path_of link) = true
           ∧ ∀ j kw', (j < k)%nat → kws !! j = Some kw' →
                      whole_word_match kw' (path_of link) = false)
  ∨ ((∀ j kw', kws !! j = Some kw' →
               whole_word_match kw' (path_of link) = false)
     ∧ ((∃ k kw, score_of kws link = Rank (k + length kws)
                 ∧ kws !! k = Some kw
                 ∧ Py.contains (Py.lower kw) (path_of link) = true
                 ∧ ∀ j kw', (j < k)%nat → kws !! j = Some kw' →
                            Py.contains (Py.lower kw') (path_of link)
                            = false)
        ∨ (score_of kws link = Infinity
           ∧ ∀ j kw', kws !! j = Some kw' →
                      Py.contains (Py.lower kw') (path_of link) = false))).
Proof.
  unfold priority_score.
  destruct (Py.for_enumerate _ kws 0%nat) as [s|] eqn:E1.
  - left. apply for_enumerate_some in E1 as (k & kw & Hk & Hr & Hbefore).
    simpl in Hr. destruct (whole_word_match kw (path_of link)) eqn:Em; [|done].
    simplify_eq. exists k, kw. split_and!; [done..|].
    intros j kw' Hj Hkw'. specialize (Hbefore j kw' Hj Hkw'). simpl in Hbefore.
    by destruct (whole_word_match kw' (path_of link)).
  - right. rewrite for_enumerate_none in E1. split.
    { intros j kw' Hkw'. specialize (E1 j kw' Hkw'). simpl in E1.
      by destruct (whole_word_match kw' (path_of link)). }
    destruct (Py.for_enumerate _ kws 0%nat) as [s|] eqn:E2.
    + left. apply for_enumerate_some in E2 as (k & kw & Hk & Hr & Hbefore).
      simpl in Hr.
      destruct (Py.contains (Py.lower kw) (path_of link)) eqn:Ec; [|done].
      simplify_eq. exists k, kw. split_and!; [done..|].
      intros j kw' Hj Hkw'. specialize (Hbefore j kw' Hj Hkw').
      simpl in Hbefore.
      by destruct (Py.contains (Py.lower kw') (path_of link)).
    + right. split; [done|]. rewrite for_enumerate_none in E2.
      intros j kw' Hkw'. specialize (E2 j kw' Hkw'). simpl in E2.
      by destruct (Py.contains (Py.lower kw') (path_of link)).
Qed.

(** X8.  The three classes of scores: the score is infinite exactly when no
    keyword is contained in the path; it is below the number of keywords
    exactly when some keyword matches as a whole word; and a finite score
    is always below twice the number of keywords. *)
Theorem priority_score_classes (kws : list str) (link : Link) :
  (score_of kws link = Infinity
   ↔ ∀ j kw, kws !! j = Some kw →
             Py.contains (Py.lower kw) (path_of link) = false)
  ∧ ((∃ k, score_of kws link = Rank k ∧ (k < length kws)%nat)
     ↔ ∃ j kw, kws !! j = Some kw
               ∧ whole_word_match kw (path_of link) = true)
  ∧ (∀ k, score_of kws link = Rank k → (k < 2 * length kws)%nat).
Proof.
  pose proof (priority_score_cases kws link) as Hc. split_and!.
  - split; [|apply priority_score_infinity].
    intros Hinf.
    destruct Hc as [(k & kw & Hs & _)|[_ [(k & kw & Hs & _)|[_ H]]]];
      [congruence | congruence | done].
  - split.
    + intros (k & Hs & Hk).
      destruct Hc as [(k' & kw & _ & Hkw & Hm & _)
                     |[_ [(k' & kw & Hs' & _)|[Hs' _]]]].
      * by exists k', kw.
      * rewrite Hs in Hs'. simplify_eq. lia.
      * congruence.
    + intros (j & kw & Hj & Hm). by eapply priority_score_whole_bound.
  - intros k Hs.
    destruct Hc as [(k' & kw & Hs' & Hkw & _)
                   |[_ [(k' & kw & Hs' & Hkw & _)|[Hs' _]]]].
    + rewrite Hs in Hs'. simplify_eq. apply lookup_lt_Some in Hkw. lia.
    + rewrite Hs in Hs'. simplify_eq. apply lookup_lt_Some in Hkw. lia.
    + congruence.
Qed.

(** In the result a link of a strictly lower score stands before a link of
    a higher one. *)
Lemma prioritize_links_lower_first (links : list Link) (kws : list str)
    (i j : nat) (x y : Link) :
  ranked links kws !! i = Some x →
  ranked links kws !! j = Some y →
  score_lt (score_of kws x) (score_of kws y) = true →
  (i < j)%nat.
Proof.
  intros Hx Hy Hlt. destruct (Nat.lt_trichotomy i j) as [?|[->|Hji]]; [done| |].
  - simplify_eq. pose proof (score_lt_asym _ _ Hlt). congruence.
  - pose proof (StronglySorted_lookup _ _ j i y x
                  (prioritize_links_ascending urlparse links kws) Hji Hy Hx)
      as Hle.
    unfold score_le in Hle. congruence.
Qed.

(** X9.  Keywords in the caller's order, whole words first: a link that
    matches the keyword of index [n] as a whole word stands, in the result,
    before every link that matches none of the keywords up to [n] as a
    whole word (and so before every link without a whole-word match). *)
Theorem prioritize_links_keyword_order (links : list Link) (kws : list str)
    (a b : Link) (n : nat) (kw : str) (i j : nat) :
  kws !! n = Some kw →
  whole_word_match kw (path_of a) = true →
  (∀ m kw', (m ≤ n)%nat → kws !! m = Some kw' →
            whole_word_match kw' (path_of b) = false) →
  ranked links kws !! i = Some a →
  ranked links kws !! j = Some b →
  (i < j)%nat.
Proof.
  intros Hn Hm Hb Hi Hj.
  apply (prioritize_links_lower_first links kws i j a b Hi Hj).
  pose proof (lookup_lt_Some _ _ _ Hn) as Hlen.
  destruct (priority_score_cases kws a)
    as [(k & kwa & -> & _ & _ & Hbefore)|[Hnone _]].
  - assert (k ≤ n)%nat as Hk.
    { destruct (decide (k ≤ n)%nat); [done|].
      rewrite (Hbefore n kw) in Hm by (done || lia). done. }
    destruct (priority_score_cases kws b)
      as [(k' & kwb & -> & Hkb & Hmb & _)
         |[_ [(k' & kwb & -> & _)|[-> _]]]]; simpl.
    + apply Nat.ltb_lt. destruct (decide (k' ≤ n)%nat); [|lia].
      rewrite (Hb k' kwb) in Hmb by done. done.
    + apply Nat.ltb_lt. lia.
    + done.
  - rewrite (Hnone n kw Hn) in Hm. done.
Qed.

(** X10.  Ranking is idempotent: ranking a ranked list again, with the same
    keywords, changes nothing. *)
Theorem prioritize_links_idempotent (links : list Link) (kws : list str) :
  ranked (ranked links kws) kws = ranked links kws.
Proof.
  apply sorted_ascending, (prioritize_links_ascending urlparse).
Qed.

(** X11.  An empty keyword is contained in every path: with an empty
    string among the keywords no link scores infinity. *)
Theorem priority_score_empty_keyword (kws : list str) (link : Link)
    (j : nat) :
  kws !! j = Some [] →
  ∃ k, score_of kws link = Rank k ∧ (k ≤ j + length kws)%nat.
Proof.
  intros Hj.
  destruct (priority_score_cases kws link)
    as [(k & kw & Hs & Hkw & _)
       |[_ [(k & kw & Hs & Hkw & Hc & Hbefore)|[_ Hno]]]].
  - exists k. split; [done|]. apply lookup_lt_Some in Hkw. lia.
  - exists (k + length kws)%nat. split; [done|].
    destruct (decide (k ≤ j)%nat) as [|Hgt]; [lia|]. exfalso.
    specialize (Hbefore j [] ltac:(lia) Hj).
    change (Py.lower []) with (@nil ascii) in Hbefore.
    by rewrite contains_empty in Hbefore.
  - specialize (Hno j [] Hj). change (Py.lower []) with (@nil ascii) in Hno.
    by rewrite contains_empty in Hno.
Qed.

End PrioritizerMore.

(** ** parse: further properties *)

(** [parse] unfolded in its three branches. *)
Ltac parse_branches :=
  unfold parse; cbv zeta;
  cbn [max_pages_per_domain priority_url_keywords];
  destruct (_ <? _); [|destruct (bool_decide _)];
  cbn [fst snd start_urls max_pages_per_domain priority_url_keywords
         found_emails pages_crawled_per_domain].

Section ControllerMore.

Variable urlparse : str → ParseResult.
Variable urlunparse : ParseResult → str.
Variable extract_links : list str → (str → str) → Response → list Link.

Local Abbreviation parse' := (parse urlparse urlunparse extract_links).
Local Abbreviation crawl' := (crawl urlparse urlunparse extract_links).
Local Abbreviation on_event' := (on_event urlparse urlunparse extract_links).
Local Abbreviation current response :=
  (domain urlparse (response_url response)).
Local Abbreviation ranked_links self response :=
  (prioritize_links urlparse
     (extract_links [current response]
        (remove_fragment urlparse urlunparse) response)
     (priority_url_keywords self)).

Lemma parse_found_emails (self : EmailSpider) (response : Response) :
  found_emails (parse' self response).1
  = found_emails self ++ yielded_items (parse' self response).2.
Proof. rewrite parse_yielded_items. parse_branches; done. Qed.

Lemma parse_outputs (self : EmailSpider) (response : Response) :
  (parse' self response).2
  = (YieldItem <$> yielded_items (parse' self response).2)
    ++ (YieldRequest <$> yielded_requests (parse' self response).2).
Proof.
  rewrite parse_yielded_items, parse_yielded_requests.
  parse_branches; by rewrite ?app_nil_r.
Qed.

Lemma parse_counts (self : EmailSpider) (response : Response) (d : str) :
  max_pages_per_domain (parse' self response).1 = max_pages_per_domain self
  ∧ pages_crawled (parse' self response).1 d
    = pages_crawled self d + (if decide (d = current response) then 1 else 0).
Proof.
  split; [parse_branches; done|].
  unfold pages_crawled. rewrite parse_counter.
  case_decide as Hd.
  - subst d. by rewrite lookup_insert_eq.
  - rewrite lookup_insert_ne by done. lia.
Qed.

(** The requests of a page are no more than the budget left, and there is
    none when the response is not at depth 0. *)
Lemma parse_requests_count (self : EmailSpider) (response : Response) :
  (depth_of (response_meta response) ≠ 0%nat →
   yielded_requests (parse' self response).2 = [])
  ∧ Z.of_nat (length (yielded_requests (parse' self response).2))
    ≤ Z.max 0
        (max_pages_per_domain self
         - (default 0 (pages_crawled_per_domain self !! current response)
            + 1)).
Proof.
  rewrite parse_yielded_requests. split.
  - intros Hd. destruct (_ <? _); [done|]. by case_bool_decide.
  - destruct (Z.ltb_spec (max_pages_per_domain self)
                (default 0 (pages_crawled_per_domain self !! current response)
                 + 1)); [simpl; lia|].
    case_bool_decide; [|simpl; lia].
    rewrite length_imap, slice_to_nonneg, length_take by lia. lia.
Qed.

(** X12.  [parse] leaves the configuration of the spider as it is (start
    URLs, page budget, keywords) and counts the page once, for the domain
    of the URL of the response: that counter goes up by one and the counter
    of every other domain is unchanged. *)
Theorem parse_frame (self : EmailSpider) (response : Response) (d : str) :
  start_urls (parse' self response).1 = start_urls self
  ∧ max_pages_per_domain (parse' self response).1 = max_pages_per_domain self
  ∧ priority_url_keywords (parse' self response).1
    = priority_url_keywords self
  ∧ pages_crawled (parse' self response).1 d
    = pages_crawled self d + (if decide (d = current response) then 1 else 0).
Proof.
  split_and!; [parse_branches; done..|].
  apply parse_counts.
Qed.

(** X13.  The items of a page: one for each address [extract_emails] finds
    in the text of the response for the domain of the URL of the response
    (the current domain, not the origin domain), no address twice, each
    with the origin domain of the response. *)
Theorem parse_items (self : EmailSpider) (response : Response) :
  NoDup (email <$> yielded_items (parse' self response).2)
  ∧ (∀ e, e ∈ email <$> yielded_items (parse' self response).2
          ↔ e ∈ extract_emails (response_text response) (current response))
  ∧ length (yielded_items (parse' self response).2)
    = size (extract_emails (response_text response) (current response))
  ∧ Forall (λ item, origin_domain item
                    = meta_origin_domain (response_meta response))
      (yielded_items (parse' self response).2).
Proof.
  rewrite parse_yielded_items, <- list_fmap_compose.
  assert (∀ l : list str,
            email
            ∘ (λ email0 : str,
                 {| email := email0;
                    origin_domain :=
                      meta_origin_domain (response_meta response) |})
            <$> l = l) as Hid.
  { intros l. induction l; simpl; [done | by f_equal]. }
  rewrite Hid. split_and!.
  - apply NoDup_elements.
  - intros e. apply elem_of_elements.
  - by rewrite length_fmap.
  - apply Forall_fmap, Forall_true. done.
Qed.

(** X14.  The priorities of the requests [parse] yields go down by one from
    one request to the next and are at least 1: every follow-up request has
    a higher priority than a start request, whose priority is 0. *)
Theorem parse_priorities (self : EmailSpider) (response : Response) :
  (∀ i r, yielded_requests (parse' self response).2 !! i = Some r →
          priority r
          = Py.len (ranked_links self response) - Z.of_nat i
          ∧ 1 ≤ priority r)
  ∧ (∀ i r r', yielded_requests (parse' self response).2 !! i = Some r →
               yielded_requests (parse' self response).2 !! S i = Some r' →
               priority r' = priority r - 1)
  ∧ ∀ r0, r0 ∈ start_requests urlparse self → priority r0 = 0.
Proof.
  assert (∀ i r, yielded_requests (parse' self response).2 !! i = Some r →
                 priority r
                 = Py.len (ranked_links self response) - Z.of_nat i
                 ∧ 1 ≤ priority r) as H.
  { intros i r. rewrite parse_yielded_requests.
    destruct (_ <? _); [done|]. case_bool_decide; [|done].
    rewrite list_lookup_imap.
    destruct (Py.slice_to _ _ !! i) as [link|] eqn:E; [|done].
    simpl. intros ?. simplify_eq. cbn [priority]. split; [done|].
    assert (i < length (ranked_links self response))%nat; [|unfold Py.len; lia].
    unfold Py.slice_to, Py.slice in E.
    apply lookup_take_Some in E as [E _]. rewrite lookup_drop in E.
    apply lookup_lt_Some in E. lia. }
  split_and!.
  - done.
  - intros i r r' Hr Hr'. apply H in Hr as [-> _]. apply H in Hr' as [-> _].
    lia.
  - by intros r0 (u & -> & _)%list_elem_of_fmap.
Qed.

(** *** The crawl run: further properties *)

(** The run after a pending request was answered. *)
Lemma on_event_fetched (run : Run) (pick : nat) (final_url body : str)
    (request : Request) (seed : str) :
  pending run !! pick = Some (request, seed) →
  let response :=
    {| response_url := final_url; response_text := body;
       response_meta := request_meta request |} in
  let followed :=
    (λ r, (with_depth (S (hop_depth request)) r, seed))
    <$> yielded_requests (parse' (spider run) response).2 in
  on_event' run (Fetched pick final_url body)
  = {| spider := (parse' (spider run) response).1;
       pending := delete pick (pending run) ++ followed;
       produced := produced run ++ followed;
       results :=
         results run
         ++ ((λ i, (i, seed))
             <$> yielded_items (parse' (spider run) response).2) |}.
Proof.
  intros Hpick. cbv zeta. unfold on_event. rewrite Hpick.
  by destruct (parse _ _ _ _ _).
Qed.

(** An event that answers no pending request changes nothing. *)
Lemma on_event_missed (run : Run) (pick : nat) (final_url body : str) :
  pending run !! pick = None →
  on_event' run (Fetched pick final_url body) = run.
Proof. intros Hpick. unfold on_event. by rewrite Hpick. Qed.

(** A property of runs that holds at the start and is kept by every event
    holds all along the run. *)
Lemma crawl_induction (P : Run → Prop) (self : EmailSpider)
    (events : list event) :
  P (start_run urlparse self) →
  (∀ run e, P run → P (on_event' run e)) →
  P (crawl' self events).
Proof.
  intros Hstart Hstep. unfold crawl.
  generalize (start_run urlparse self) Hstart.
  induction events as [|e events IH]; intros run Hrun; simpl; [done|].
  apply IH. by apply Hstep.
Qed.

(** X15.  All along a crawl run, [found_emails] is what the spider had
    found before followed by the items emitted so far, in the order of
    their emission. *)
Theorem crawl_found_emails (self : EmailSpider) (events : list event) :
  found_emails (spider (crawl' self events))
  = found_emails self ++ (results (crawl' self events)).*1.
Proof.
  apply (crawl_induction
           (λ run, found_emails (spider run)
                   = found_emails self ++ (results run).*1)).
  - simpl. by rewrite app_nil_r.
  - intros run [pick final_url body|pick] Hrun; [|done].
    destruct (pending run !! pick) as [[request seed]|] eqn:Hpick.
    + rewrite (on_event_fetched run pick final_url body request seed Hpick).
      cbn [spider results].
      rewrite parse_found_emails, Hrun, fmap_app, <- app_assoc.
      do 2 f_equal. rewrite <- list_fmap_compose.
      generalize (yielded_items
                    (parse' (spider run)
                       {| response_url := final_url; response_text := body;
                          response_meta := request_meta request |}).2).
      intros l. induction l; simpl; [done | by f_equal].
    + by rewrite on_event_missed.
Qed.

(** X16.  The page counters never go down, and an event raises the counter
    of a domain by one at most (a dropped request and an event that answers
    no pending request raise none): after a run of [n] events the counter
    of a domain is at most [n] above its value at the start. *)
Theorem crawl_counters (self : EmailSpider) (events : list event) (d : str) :
  (∀ run e,
     pages_crawled (spider run) d ≤ pages_crawled (spider (on_event' run e)) d
     ∧ pages_crawled (spider (on_event' run e)) d
       ≤ pages_crawled (spider run) d + 1)
  ∧ (∀ run pick, spider (on_event' run (Dropped pick)) = spider run)
  ∧ pages_crawled self d ≤ pages_crawled (spider (crawl' self events)) d
  ∧ pages_crawled (spider (crawl' self events)) d
    ≤ pages_crawled self d + Z.of_nat (length events).
Proof.
  assert (∀ run e,
            pages_crawled (spider run) d
            ≤ pages_crawled (spider (on_event' run e)) d
            ∧ pages_crawled (spider (on_event' run e)) d
              ≤ pages_crawled (spider run) d + 1) as Hstep.
  { intros run [pick final_url body|pick];
      [|unfold on_event; cbn [spider]; lia].
    destruct (pending run !! pick) as [[request seed]|] eqn:Hpick.
    - rewrite (on_event_fetched run pick final_url body request seed Hpick).
      cbn [spider].
      destruct (parse_counts (spider run)
                  {| response_url := final_url; response_text := body;
                     response_meta := request_meta request |} d)
        as (_ & ->).
      case_decide; lia.
    - rewrite on_event_missed by done. lia. }
  split_and!; [done | done | |].
  - apply (crawl_induction
             (λ run, pages_crawled self d ≤ pages_crawled (spider run) d));
      [simpl; lia|].
    intros run e Hrun. destruct (Hstep run e). lia.
  - unfold crawl.
    change (pages_crawled self d)
      with (pages_crawled (spider (start_run urlparse self)) d).
    generalize (start_run urlparse self).
    induction events as [|e events IH]; intros run; simpl; [lia|].
    specialize (IH (on_event' run e)). destruct (Hstep run e). lia.
Qed.

Lemma filter_delete_le {A} (P : A → Prop) `{∀ x, Decision (P x)}
    (l : list A) (i : nat) :
  (length (filter P (delete i l)) ≤ length (filter P l))%nat.
Proof.
  destruct (l !! i) as [x|] eqn:E.
  - rewrite delete_take_drop. rewrite <- (take_drop_middle l i x E) at 3.
    rewrite !filter_app, !length_app, filter_cons.
    case_decide; simpl; lia.
  - apply lookup_ge_None in E.
    by rewrite delete_take_drop, take_ge, drop_ge, app_nil_r by lia.
Qed.

Lemma filter_delete_picked {A} (P : A → Prop) `{∀ x, Decision (P x)}
    (l : list A) (i : nat) (x : A) :
  l !! i = Some x → P x →
  S (length (filter P (delete i l))) = length (filter P l).
Proof.
  intros E Hx. rewrite delete_take_drop.
  rewrite <- (take_drop_middle l i x E) at 3.
  rewrite !filter_app, !length_app, filter_cons_True by done. simpl. lia.
Qed.

Lemma filter_all {A} (P : A → Prop) `{∀ x, Decision (P x)} (l : list A) :
  Forall P l → filter P l = l.
Proof.
  induction 1 as [|x l Hx Hl IH]; [done|].
  by rewrite filter_cons_True, IH.
Qed.

Lemma followed_not_seeds (d : nat) (seed : str) (l : list Request) :
  filter (λ p : Request * str, hop_depth p.1 = 0%nat)
    ((λ r, (with_depth (S d) r, seed)) <$> l) = [].
Proof.
  induction l as [|r l IH]; [done|].
  rewrite fmap_cons, filter_cons_False; [done|]. by simpl.
Qed.

(** X17.  A crawl run makes a bounded number of requests: when no counter
    of the spider is negative at the start, the requests made in the whole
    run, the start requests and the follow-up ones, are never more than the
    number of start URLs times [max_pages_per_domain] (times 1 when the
    budget is below 1), however many pages are fetched and whatever they
    hold. *)
Theorem crawl_requests_bound (self : EmailSpider) (events : list event) :
  (∀ d v, pages_crawled_per_domain self !! d = Some v → 0 ≤ v) →
  Z.of_nat (length (produced (crawl' self events)))
  ≤ Z.of_nat (length (start_urls self))
    * Z.max 1 (max_pages_per_domain self).
Proof.
  intros Hcount.
  set (M := Z.max 1 (max_pages_per_domain self)).
  set (n := Z.of_nat (length (start_urls self))).
  enough (max_pages_per_domain (spider (crawl' self events))
          = max_pages_per_domain self
          ∧ (∀ d v, pages_crawled_per_domain (spider (crawl' self events)) !! d
                    = Some v → 0 ≤ v)
          ∧ Z.of_nat (length (produced (crawl' self events)))
            + (M - 1) * Z.of_nat (seeds_pending (crawl' self events))
            ≤ n * M) as (_ & _ & H).
  { assert (0 ≤ (M - 1) * Z.of_nat (seeds_pending (crawl' self events)))
      by (apply Z.mul_nonneg_nonneg; lia).
    lia. }
  apply (crawl_induction
           (λ run, max_pages_per_domain (spider run)
                   = max_pages_per_domain self
                   ∧ (∀ d v, pages_crawled_per_domain (spider run) !! d
                             = Some v → 0 ≤ v)
                   ∧ Z.of_nat (length (produced run))
                     + (M - 1) * Z.of_nat (seeds_pending run) ≤ n * M)).
  - split_and!; [done | done |].
    unfold seeds_pending, start_run, start_requests.
    cbn [pending produced].
    rewrite filter_all
      by (apply Forall_fmap, Forall_fmap, Forall_true; done).
    rewrite !length_fmap. fold n. lia.
  - intros run e (Hmax & Hnn & Hbound).
    destruct e as [pick final_url body|pick].
    + destruct (pending run !! pick) as [[request seed]|] eqn:Hpick;
        [|by rewrite on_event_missed].
      rewrite (on_event_fetched run pick final_url body request seed Hpick).
      set (response := {| response_url := final_url; response_text := body;
                          response_meta := request_meta request |}).
      destruct (parse_counts (spider run) response (current response))
        as (Hmax' & _).
      pose proof (parse_counter urlparse urlunparse extract_links
                    (spider run) response) as Hctr.
      pose proof (parse_requests_count (spider run) response)
        as (Hdeep & Hlen).
      unfold seeds_pending. cbn [spider pending produced].
      split_and!.
      * congruence.
      * intros d v. rewrite Hctr. intros Hv.
        destruct (decide (current response = d)) as [<-|Hne].
        -- rewrite lookup_insert_eq in Hv. simplify_eq.
           destruct (pages_crawled_per_domain (spider run)
                       !! current response) as [v|] eqn:Ev; simpl; [|lia].
           specialize (Hnn _ _ Ev). lia.
        -- rewrite lookup_insert_ne in Hv by done. by eapply Hnn.
      * rewrite filter_app, followed_not_seeds, app_nil_r, length_app,
          length_fmap.
        set (reqs := yielded_requests (parse' (spider run) response).2) in *.
        set (count := default 0 (pages_crawled_per_domain (spider run)
                                   !! current response) + 1) in *.
        assert (1 ≤ count) as Hc1.
        { unfold count.
          destruct (pages_crawled_per_domain (spider run)
                      !! current response) as [v|] eqn:Ev; simpl; [|lia].
          specialize (Hnn _ _ Ev). lia. }
        pose proof (filter_delete_le
                      (λ p : Request * str, hop_depth p.1 = 0%nat)
                      (pending run) pick) as Hle.
        unfold seeds_pending in Hbound.
        fold reqs count in Hdeep, Hlen. rewrite Hmax in Hlen.
        destruct (decide (depth_of (response_meta response) = 0%nat))
          as [Hd0|Hdn]; [|rewrite (Hdeep Hdn); simpl; nia].
        pose proof (filter_delete_picked
                      (λ p : Request * str, hop_depth p.1 = 0%nat)
                      (pending run) pick (request, seed) Hpick Hd0) as Hpk.
        nia.
    + unfold on_event, seeds_pending. cbn [spider pending produced].
      split_and!; [done | done |].
      pose proof (filter_delete_le
                    (λ p : Request * str, hop_depth p.1 = 0%nat)
                    (pending run) pick) as Hle.
      unfold seeds_pending in Hbound. nia.
Qed.

End ControllerMore.

(** ** extract_emails and the www prefix *)

(** X18.  A page of [www.] followed by a host name and a page of the host
    name itself are searched for the same addresses. *)
Theorem extract_emails_www (text domain : str) :
  extract_emails text (py "www." ++ domain) = extract_emails text domain.
Proof.
  unfold extract_emails, extract_emails_run.
  assert (target_of (py "www." ++ domain) = target_of domain) as -> by done.
  done.
Qed.

(** ** Witnesses *)

Lemma priority_score_case_insensitive_witness :
  priority_score simple_urlparse [py "About"; py "WORK"] (link_to "/Network")
  = priority_score simple_urlparse [py "about"; py "work"] (link_to "/Network")
  ∧ priority_score simple_urlparse [py "about"] (link_to "/About")
    = priority_score simple_urlparse [py "about"] (link_to "/ABOUT").
Proof.
  destruct (priority_score_case_insensitive simple_urlparse
              [py "About"; py "WORK"] [py "about"; py "work"]
              [] (link_to "/Network") (link_to "/Network"))
    as (Hkws & _ & _).
  destruct (priority_score_case_insensitive simple_urlparse
              [py "about"] [py "about"] [] (link_to "/About")
              (link_to "/ABOUT")) as (_ & _ & Hpath).
  split.
  - apply Hkws. reflexivity.
  - apply Hpath. reflexivity.
Defined.

Lemma priority_score_classes_witness :
  priority_score simple_urlparse [py "work"; py "about"] (link_to "/network")
  = Rank 2
  ∧ (2 < 2 * length [py "work"; py "about"])%nat.
Proof.
  destruct (priority_score_classes simple_urlparse [py "work"; py "about"]
              (link_to "/network")) as (_ & _ & Hbound).
  split; [reflexivity|]. apply Hbound. reflexivity.
Defined.

Lemma prioritize_links_keyword_order_witness :
  prioritize_links simple_urlparse [link_to "/network"; link_to "/about"]
    [py "work"; py "about"]
  = [link_to "/about"; link_to "/network"]
  ∧ (0 < 1)%nat.
Proof.
  split; [reflexivity|].
  apply (prioritize_links_keyword_order simple_urlparse
           [link_to "/network"; link_to "/about"] [py "work"; py "about"]
           (link_to "/about") (link_to "/network") 1 (py "about") 0 1);
    [reflexivity | reflexivity | | reflexivity | reflexivity].
  intros [|[|m]] kw' Hm Hkw'; simpl in Hkw'; simplify_eq; reflexivity.
Defined.

Lemma priority_score_empty_keyword_witness :
  ∃ k, priority_score simple_urlparse [py "about"; py ""] (link_to "/home")
       = Rank k
       ∧ (k ≤ 1 + length [py "about"; py ""])%nat.
Proof.
  apply (priority_score_empty_keyword simple_urlparse [py "about"; py ""]
           (link_to "/home") 1).
  reflexivity.
Defined.

Lemma parse_priorities_witness :
  priority
    {| request_url := py "https://www.example.org/contact";
       priority := 3;
       request_meta :=
         {| meta_origin_domain := py "example.com"; meta_depth := None |} |}
  = Py.len
      (prioritize_links simple_urlparse
         (simple_extract_links
            [domain simple_urlparse (response_url demo_response)]
            (remove_fragment simple_urlparse simple_urlunparse)
            demo_response)
         (priority_url_keywords demo_spider))
    - Z.of_nat 0
  ∧ 1 ≤ 3.
Proof.
  destruct (parse_priorities simple_urlparse simple_urlunparse
              simple_extract_links demo_spider demo_response) as (H & _ & _).
  apply (H 0%nat
           {| request_url := py "https://www.example.org/contact";
              priority := 3;
              request_meta :=
                {| meta_origin_domain := py "example.com";
                   meta_depth := None |} |}).
  vm_compute. reflexivity.
Defined.

Lemma crawl_requests_bound_witness :
  Z.of_nat (length (produced demo_crawl))
  ≤ Z.of_nat (length (start_urls demo_spider))
    * Z.max 1 (max_pages_per_domain demo_spider).
Proof.
  apply (crawl_requests_bound simple_urlparse simple_urlunparse
           simple_extract_links demo_spider demo_events).
  intros d v Hv. vm_compute in Hv. discriminate Hv.
Defined.

(** ** extract_emails on a text in two parts *)

Lemma occurs_at_lookups (e s : str) (i : nat) :
  e ≠ [] →
  occurs_at e s i ↔ ∀ k, (k < length e)%nat → s !! (i + k)%nat = e !! k.
Proof.
  intros Hne. split; [intros H k Hk; by apply occurs_at_lookup|].
  intros H. assert (0 < length e)%nat as Hlen by (destruct e; simpl; [done|lia]).
  split.
  - specialize (H (length e - 1)%nat ltac:(lia)).
    destruct (e !! (length e - 1)%nat) as [c|] eqn:E;
      [|apply lookup_ge_None in E; lia].
    apply lookup_lt_Some in H. lia.
  - apply list_eq. intros k. destruct (decide (k < length e)%nat).
    + rewrite lookup_take_lt, lookup_drop by done. by apply H.
    + rewrite lookup_take_ge by lia. symmetry. apply lookup_ge_None. lia.
Qed.

Lemma outside_allowed_before (text : str) (i : nat) :
  outside_allowed text (Z.of_nat i - 1)
  ↔ i = 0%nat ∨ in_allowed (text !! (i - 1)%nat) = false.
Proof.
  unfold outside_allowed, Py.len. split.
  - intros [H|[H|H]].
    + left. lia.
    + right. by rewrite lookup_ge_None_2 by lia.
    + destruct i; [by left|]. right.
      by replace (Z.to_nat (Z.of_nat (S i) - 1)) with (S i - 1)%nat in H by lia.
  - intros [->|H]; [left; lia|].
    destruct i; [left; lia|]. right; right.
    by replace (Z.to_nat (Z.of_nat (S i) - 1)) with (S i - 1)%nat by lia.
Qed.

Lemma outside_allowed_after (text : str) (k : nat) :
  outside_allowed text (Z.of_nat k) ↔ in_allowed (text !! k) = false.
Proof.
  unfold outside_allowed, Py.len. rewrite Nat2Z.id. split.
  - intros [H|[H|H]]; [lia | | done].
    by rewrite lookup_ge_None_2 by lia.
  - intros H. by right; right.
Qed.

Lemma lookup_around (t1 t2 : str) (sep : ascii) (k : nat) :
  (t1 ++ sep :: t2) !! k
  = if decide (k < length t1)%nat then t1 !! k
    else if decide (k = length t1) then Some sep
    else t2 !! (k - length t1 - 1)%nat.
Proof.
  case_decide; [by rewrite lookup_app_l|].
  rewrite lookup_app_r by lia. case_decide.
  - subst. by rewrite Nat.sub_diag.
  - destruct (k - length t1)%nat as [|m] eqn:E; [lia|]. simpl.
    f_equal. lia.
Qed.

(** An address stands in a text in two parts, with a character between
    them that is neither allowed nor in the target, exactly when it stands
    in one of the parts. *)
Lemma extracted_at_app (t1 t2 target e : str) (sep : ascii) (i : nat) :
  target ≠ [] →
  in_allowed (Some sep) = false →
  sep ∉ target →
  extracted_at (t1 ++ sep :: t2) target e i
  ↔ extracted_at t1 target e i
    ∨ ∃ i', i = (length t1 + 1 + i')%nat ∧ extracted_at t2 target e i'.
Proof.
  intros Htarget Hsep Hnot. unfold extracted_at.
  set (n := length t1).
  assert (∀ username, Forall (λ c, c ∈ allowed_chars) username →
                      sep ∉ username ++ target) as Hfree.
  { intros u Hu [H|H]%elem_of_app; [|done].
    rewrite Forall_forall in Hu. specialize (Hu _ H).
    simpl in Hsep. by apply bool_decide_eq_false in Hsep. }
  split.
  - intros (u & -> & Hne & Hall & Hocc & Hleft & Hright).
    assert (u ++ target ≠ []) as Hen by (by destruct u).
    rewrite occurs_at_lookups in Hocc by done.
    rewrite outside_allowed_before in Hleft.
    unfold Py.len in Hright. rewrite <- Nat2Z.inj_add in Hright.
    rewrite outside_allowed_after in Hright.
    assert (0 < length (u ++ target))%nat as Hel
      by (destruct u; simpl; [done | lia]).
    set (e := u ++ target) in *.
    destruct (decide (i + length e ≤ n)%nat) as [HA|HA].
    { left. exists u. split_and!; [done..| | |].
      - apply occurs_at_lookups; [done|]. intros k Hk.
        rewrite <- Hocc by done. rewrite lookup_around.
        by rewrite decide_True by (fold n; lia).
      - apply outside_allowed_before. destruct Hleft as [->|Hleft]; [by left|].
        right. rewrite lookup_around in Hleft.
        destruct i; [by rewrite decide_True in Hleft by (fold n; simpl in *; lia)|].
        by rewrite decide_True in Hleft by (fold n; lia).
      - unfold Py.len. rewrite <- Nat2Z.inj_add. apply outside_allowed_after.
        rewrite lookup_around in Hright. fold n in Hright.
        destruct (decide (i + length e < n)%nat); [done|].
        by rewrite lookup_ge_None_2 by (fold n; lia). }
    destruct (decide (n < i)%nat) as [HB|HB].
    { right. exists (i - n - 1)%nat. split; [lia|].
      exists u. split_and!; [done..| | |].
      - apply occurs_at_lookups; [done|]. intros k Hk.
        rewrite <- Hocc by done. rewrite lookup_around. fold n.
        rewrite decide_False by lia. rewrite decide_False by lia.
        f_equal. lia.
      - apply outside_allowed_before. destruct Hleft as [->|Hleft]; [lia|].
        destruct (decide (i - n - 1 = 0)%nat); [by left|]. right.
        rewrite lookup_around in Hleft. fold n in Hleft.
        rewrite decide_False in Hleft by lia.
        rewrite decide_False in Hleft by lia.
        rewrite <- Hleft. do 2 f_equal. lia.
      - unfold Py.len. rewrite <- Nat2Z.inj_add. apply outside_allowed_after.
        rewrite lookup_around in Hright. fold n in Hright.
        rewrite decide_False in Hright by lia.
        rewrite decide_False in Hright by lia.
        rewrite <- Hright. do 2 f_equal. lia. }
    exfalso. apply (Hfree u Hall). fold e.
    specialize (Hocc (n - i)%nat ltac:(lia)).
    rewrite lookup_around in Hocc. fold n in Hocc.
    rewrite decide_False in Hocc by lia.
    rewrite decide_True in Hocc by lia.
    eapply list_elem_of_lookup_2. symmetry. exact Hocc.
  - intros [(u & -> & Hne & Hall & Hocc & Hleft & Hright)
           |(i' & -> & u & -> & Hne & Hall & Hocc & Hleft & Hright)];
      exists u; (split_and!; [done..| | |]).
    + pose proof Hocc as [Hb _].
      assert (u ++ target ≠ []) as Hen by (by destruct u).
      rewrite occurs_at_lookups in Hocc |- * by done.
      intros k Hk. rewrite lookup_around, decide_True by lia. by apply Hocc.
    + apply outside_allowed_before. apply outside_allowed_before in Hleft.
      destruct Hleft as [->|Hleft]; [by left|]. right.
      destruct Hocc as [Hb _].
      destruct i; [simpl in *|]; rewrite lookup_around.
      * destruct (decide (0 < length t1)%nat); [done|].
        destruct t1; simpl in *; [|lia]. destruct u; [done | simpl in Hb; lia].
      * rewrite decide_True; [done|]. rewrite length_app in Hb. lia.
    + unfold Py.len in *. rewrite <- Nat2Z.inj_add in *.
      apply outside_allowed_after. apply outside_allowed_after in Hright.
      destruct Hocc as [Hb _]. rewrite lookup_around.
      destruct (decide (i + length (u ++ target) < length t1)%nat); [done|].
      rewrite decide_True by lia. done.
    + assert (u ++ target ≠ []) as Hen by (by destruct u).
      rewrite occurs_at_lookups in Hocc |- * by done.
      intros k Hk. rewrite lookup_around. fold n.
      rewrite decide_False by lia. rewrite decide_False by lia.
      rewrite <- Hocc by done. f_equal. lia.
    + apply outside_allowed_before. apply outside_allowed_before in Hleft.
      right. rewrite lookup_around. fold n.
      rewrite decide_False by lia.
      destruct Hleft as [->|Hleft].
      * rewrite decide_True by lia. done.
      * destruct (decide (i' = 0)%nat) as [->|]; [by rewrite decide_True by lia|].
        rewrite decide_False by lia. rewrite <- Hleft. do 2 f_equal. lia.
    + unfold Py.len in *. rewrite <- Nat2Z.inj_add in *.
      apply outside_allowed_after. apply outside_allowed_after in Hright.
      rewrite lookup_around. fold n.
      rewrite decide_False by lia. rewrite decide_False by lia.
      rewrite <- Hright. do 2 f_equal. lia.
Qed.

(** X19.  For a domain without ["@"], the addresses found in a text made of
    two parts with a character between them that is neither an allowed
    character nor a character of the target (a space, a line break) are
    those found in the first part and those found in the second. *)
Theorem extract_emails_app (text1 text2 domain : str) (sep : ascii) :
  "@"%char ∉ domain →
  in_allowed (Some sep) = false →
  sep ∉ target_of domain →
  extract_emails (text1 ++ sep :: text2) domain
  = extract_emails text1 domain ∪ extract_emails text2 domain.
Proof.
  intros Hat Hsep Hnot. apply set_eq. intros e. rewrite elem_of_union.
  assert (target_of domain ≠ []) as Hne by done.
  split.
  - intros [i Hi]%extract_emails_sound.
    apply (proj1 (extracted_at_app _ _ _ _ _ _ Hne Hsep Hnot)) in Hi
      as [Hi|(i' & _ & Hi)].
    + left. by eapply extract_emails_finds.
    + right. by eapply extract_emails_finds.
  - intros [[i Hi]%extract_emails_sound|[i Hi]%extract_emails_sound].
    + apply (extract_emails_finds _ _ _ i Hat).
      apply extracted_at_app; [done..|]. by left.
    + apply (extract_emails_finds _ _ _ (length text1 + 1 + i)%nat Hat).
      apply extracted_at_app; [done..|]. right. by exists i.
Qed.

Lemma extract_emails_app_witness :
  extract_emails (py "a@x.com" ++ " "%char :: py "b@x.com") (py "x.com")
  = extract_emails (py "a@x.com") (py "x.com")
    ∪ extract_emails (py "b@x.com") (py "x.com").
Proof.
  apply extract_emails_app.
  - apply (bool_decide_eq_false_1 _). vm_compute. reflexivity.
  - reflexivity.
  - apply (bool_decide_eq_false_1 _). vm_compute. reflexivity.
Defined.
